(** * Script synthesis and metered voice rendering: a shallow embedding

    The development follows the two generation modules of the repository:

    - [script_generator.py]: [split_into_segments] and the cue loops of
      [generate_tts_vtt] and [generate_captions_vtt] (module [Script]
      below, over the string primitives of module [Text]),
      [format_vtt_time] (module [Clock]) and the two builders with the
      text they return (module [Vtt]);
    - [tts_generator.py]: [load_usage_data], [save_usage_data],
      [select_project], [update_usage] and the ledger steps of
      [generate_audio] (module [Tts]).

    Python strings are sequences of Unicode code points, Python floats are
    IEEE binary64 numbers, the usage ledger is a JSON file that every call
    re-reads and re-writes.  They are modelled as lists of code points,
    as the kernel's primitive floats, and as an explicit file-system state
    threaded through a state-and-exception monad. *)

From Stdlib Require Import List ZArith NArith Lia Bool String Ascii.
From Stdlib Require Import QArith Floats.
Import ListNotations.

Set Implicit Arguments.

(* ================================================================== *)
(** * Exceptions *)
(* ================================================================== *)

(** What a modelled call returns: a value, or the exception it raises. *)
Inductive exn :=
| ZeroDivisionError
| OverflowError
| ValueError
| StopIteration
| KeyError (key : string)
| FileNotFoundError
| Exception (msg : string).

Inductive result (A : Type) :=
| Ok (a : A)
| Raise (e : exn).

Arguments Ok {A} a.
Arguments Raise {A} e.

(** Sequencing: the statements after a call run when the call returned,
    and an exception it raised passes through them. *)
Definition and_then {X Y : Type} (r : result X) (k : X -> result Y)
  : result Y :=
  match r with
  | Ok x => k x
  | Raise e => Raise e
  end.

Notation "x <== r ;; k" := (and_then r (fun x => k))
  (at level 61, r at next level, right associativity).

Notation "' p <== r ;; k" :=
  (and_then r (fun x => match x with p => k end))
  (at level 61, p pattern, r at next level, right associativity).

(* ================================================================== *)
(** * Strings *)
(* ================================================================== *)

Module Text.

(** A character is a Unicode code point; a Python [str] is a sequence of
    them. *)
Definition char := N.
Definition str := list char.

Definition of_string (s : string) : str :=
  map N_of_ascii (list_ascii_of_string s).

(** [len] of a string or of a list. *)
Definition len {X : Type} (s : list X) : Z := Z.of_nat (List.length s).

Definition in_range (lo hi c : N) : bool := ((lo <=? c) && (c <=? hi))%N.

(** [str.isspace] on one character, which is also what [\s] matches in a
    [str] pattern of [re]: the code points CPython lists as whitespace. *)
Definition isspace (c : char) : bool :=
  in_range 0x09 0x0D c || in_range 0x1C 0x20 c
  || (c =? 0x85)%N || (c =? 0xA0)%N || (c =? 0x1680)%N
  || in_range 0x2000 0x200A c
  || (c =? 0x2028)%N || (c =? 0x2029)%N || (c =? 0x202F)%N
  || (c =? 0x205F)%N || (c =? 0x3000)%N.

(** The class [[.!?]] of the sentence pattern. *)
Definition is_terminator (c : char) : bool :=
  (c =? 0x2E)%N || (c =? 0x21)%N || (c =? 0x3F)%N.

Definition space : char := 0x20%N.

(** ** [str.split()] with no argument: the maximal runs of non-whitespace.

    [split_go s] reads [s] from the right and returns the run that touches
    the left end of [s] (empty when [s] starts with whitespace or is
    empty) and the runs after it. *)
Definition flush (w : str) (ws : list str) : list str :=
  match w with
  | [] => ws
  | _ :: _ => w :: ws
  end.

Fixpoint split_go (s : str) : str * list str :=
  match s with
  | [] => ([], [])
  | c :: r =>
      let '(w, ws) := split_go r in
      if isspace c then ([], flush w ws) else (c :: w, ws)
  end.

Definition split (s : str) : list str :=
  let '(w, ws) := split_go s in flush w ws.

(** ** [sep.join(ws)] *)
Fixpoint join (sep : str) (ws : list str) : str :=
  match ws with
  | [] => []
  | [w] => w
  | w :: r => w ++ sep ++ join sep r
  end.

(** ** [re.split(r'(?<=[.!?])\s+', text)]

    The pattern matches a maximal run of whitespace whose first character
    follows a terminator.  The scanner remembers whether the previous
    character was a terminator and whether it is inside a match; the
    pieces between the matches are returned, the last one possibly
    empty. *)
Inductive scan := Plain | AfterTerminator | InGap.

Definition push (c : char) (ps : list str) : list str :=
  match ps with
  | [] => [[c]]
  | p :: r => (c :: p) :: r
  end.

Fixpoint re_split_go (st : scan) (s : str) : list str :=
  match s with
  | [] => [[]]
  | c :: r =>
      match st, isspace c with
      | InGap, true => re_split_go InGap r
      | AfterTerminator, true => [] :: re_split_go InGap r
      | _, _ =>
          push c (re_split_go
                    (if is_terminator c then AfterTerminator else Plain) r)
      end
  end.

Definition re_split_sentences (text : str) : list str :=
  re_split_go Plain text.

(** A word: what [split] returns, a non-empty run without whitespace. *)
Definition is_word (w : str) : Prop :=
  w <> [] /\ Forall (fun c => isspace c = false) w.

End Text.

(* ================================================================== *)
(** * script_generator.py *)
(* ================================================================== *)

Module Script.
Import Text.

(** ** [split_into_segments] *)

(** The three variables the loop of [split_into_segments] updates. *)
Record seg_state := mk_seg_state {
  segments : list str;
  current_segment : list str;
  current_length : Z
}.

Definition seg_init : seg_state := mk_seg_state [] [] 0.

(** The body of [for word in words]. *)
Definition seg_word (limit : Z) (st : seg_state) (word : str) : seg_state :=
  let test_line := join [space] (current_segment st ++ [word]) in
  if (len test_line >? limit)%Z then
    match current_segment st with
    | _ :: _ =>
        mk_seg_state (segments st ++ [join [space] (current_segment st)])
                     [word] (len word)
    | [] =>
        mk_seg_state (segments st ++ [word])
                     (current_segment st) (current_length st)
    end
  else
    mk_seg_state (segments st) (current_segment st ++ [word]) (len test_line).

(** The body of [for sentence in sentences]. *)
Definition seg_sentence (limit : Z) (st : seg_state) (sentence : str)
  : seg_state :=
  fold_left (seg_word limit) (split sentence) st.

Definition seg_finish (st : seg_state) : list str :=
  match current_segment st with
  | _ :: _ => segments st ++ [join [space] (current_segment st)]
  | [] => segments st
  end.

Definition split_into_segments
  (text : str) (max_chars_per_line max_lines : Z) : list str :=
  let sentences := re_split_sentences text in
  seg_finish
    (fold_left (seg_sentence (max_chars_per_line * max_lines)) sentences
               seg_init).

Definition default_max_chars : Z := 35.
Definition default_max_lines : Z := 2.

(** ** Durations

    [total_duration], [current_time], [start_time] and [end_time] are
    Python floats.  The loops only use the constant [0.0], [+] and one
    division by [len(segments)], so the builders are written once over
    these operations and read at two instances: [binary64], the floats
    the program runs on, and [exact], the rationals, where the same
    program is free of rounding. *)
Record arith := mk_arith {
  num : Type;
  zero : num;
  add : num -> num -> num;
  div_int : num -> Z -> num
}.

(** [float(n)] for the [int] [n = len(segments)], as [/] converts it. *)
Definition float_of_int (n : Z) : float :=
  PrimFloat.of_uint63 (Uint63.of_Z n).

Definition binary64 : arith :=
  mk_arith 0%float PrimFloat.add
           (fun x n => PrimFloat.div x (float_of_int n)).

Definition exact : arith :=
  mk_arith 0%Q Qplus (fun x n => (x / inject_Z n)%Q).

Section Tracks.
Variable A : arith.

(** [x / n] for an [int] [n]: Python raises on a zero divisor. *)
Definition divide (x : num A) (n : Z) : result (num A) :=
  if (n =? 0)%Z then Raise ZeroDivisionError else Ok (div_int A x n).

(** One timed block of a track: the two times given to
    [format_vtt_time] and the text lines written under them. *)
Record cue := mk_cue {
  start_time : num A;
  end_time : num A;
  lines : list str
}.

Definition interval (c : cue) : num A * num A :=
  (start_time c, end_time c).

(** *** [generate_tts_vtt] *)

Definition rate_slow (text : str) : str :=
  of_string "<rate slow>" ++ text ++ of_string "</rate>".

(** [emphasis] stands for lines 76-78: the test for a trigger word and
    the [re.sub] that wraps each of them; it only changes the text of a
    cue. *)
Variable emphasis : str -> str.

(** The body of [for i, segment in enumerate(segments)]; the state is
    [current_time] and the cues appended so far. *)
Definition tts_step (duration_per_segment : num A)
  (st : num A * list cue) (entry : nat * str) : num A * list cue :=
  let '(current_time, cues) := st in
  let '(i, segment) := entry in
  let start := current_time in
  let stop := add A current_time duration_per_segment in
  let text := if Nat.eqb i 0 then rate_slow segment else segment in
  let text := emphasis text in
  (stop, cues ++ [mk_cue start stop [text]]).

Definition enumerate (l : list str) : list (nat * str) :=
  combine (seq 0 (List.length l)) l.

(** The cues the loop of [generate_tts_vtt] goes through: the division
    by [len(segments)], which may raise, and then the times and the text
    of every cue.  The string the function returns, with the calls of
    [format_vtt_time] that may end the loop, is
    [Vtt.generate_tts_vtt_text] below. *)
Definition generate_tts_vtt (summary_text : str) (total_duration : num A)
  : result (list cue) :=
  let segs :=
    split_into_segments summary_text default_max_chars default_max_lines in
  match divide total_duration (len segs) with
  | Raise e => Raise e
  | Ok duration_per_segment =>
      Ok (snd (fold_left (tts_step duration_per_segment) (enumerate segs)
                         (zero A, [])))
  end.

(** *** [generate_captions_vtt] *)

(** The body of [for word in words] of the wrapping loop; the state is
    [lines] and [current_line]. *)
Definition wrap_word (max_chars : Z)
  (st : list str * list str) (word : str) : list str * list str :=
  let '(lns, current_line) := st in
  let test_line := join [space] (current_line ++ [word]) in
  if (len test_line >? max_chars)%Z then
    match current_line with
    | _ :: _ => (lns ++ [join [space] current_line], [word])
    | [] => (lns ++ [word], current_line)
    end
  else (lns, current_line ++ [word]).

Definition wrap_lines (max_chars : Z) (segment : str) : list str :=
  let '(lns, current_line) :=
    fold_left (wrap_word max_chars) (split segment) ([], []) in
  match current_line with
  | _ :: _ => lns ++ [join [space] current_line]
  | [] => lns
  end.

Definition captions_step (max_chars : Z) (duration_per_segment : num A)
  (st : num A * list cue) (segment : str) : num A * list cue :=
  let '(current_time, cues) := st in
  let start := current_time in
  let stop := add A current_time duration_per_segment in
  (stop, cues ++ [mk_cue start stop (firstn 2 (wrap_lines max_chars segment))]).

(** The cues the loop of [generate_captions_vtt] goes through; the
    string the function returns is [Vtt.generate_captions_vtt_text]. *)
Definition generate_captions_vtt
  (summary_text : str) (total_duration : num A) (max_chars : Z)
  : result (list cue) :=
  let segs := split_into_segments summary_text max_chars default_max_lines in
  match divide total_duration (len segs) with
  | Raise e => Raise e
  | Ok duration_per_segment =>
      Ok (snd (fold_left (captions_step max_chars duration_per_segment)
                         segs (zero A, [])))
  end.

(** *** Shapes of an interval sequence *)

(** Every interval starts where the one before it ended, the first one
    at [from]. *)
Fixpoint chained (from : num A) (ivs : list (num A * num A)) : Prop :=
  match ivs with
  | [] => True
  | (s, e) :: r => s = from /\ chained e r
  end.

(** [t + d + ... + d], with [i] additions, as the loops compute it. *)
Definition add_times (d : num A) (i : nat) (t : num A) : num A :=
  Nat.iter i (fun x => add A x d) t.

(** The intervals [n] rounds of either loop give from [current_time = t]. *)
Fixpoint summed (d : num A) (n : nat) (t : num A) : list (num A * num A) :=
  match n with
  | O => []
  | S k => (t, add A t d) :: summed d k (add A t d)
  end.

End Tracks.

End Script.

(* ================================================================== *)
(** * script_generator.py: [format_vtt_time] *)
(* ================================================================== *)

(** [format_vtt_time] goes through [datetime.timedelta], the float
    operators [//] and [%], [int()] and two format specifications.  They
    are written here on binary64 floats, read through their sign,
    mantissa and exponent ([Prim2SF]), with the exceptions Python
    raises. *)
Module Clock.
Import Text.

(** ** Floats and integers *)

(** [int(x)]: the integer part of [x], towards zero.  A NaN raises
    [ValueError], an infinity [OverflowError]. *)
Definition int_of_float (x : float) : result Z :=
  match Prim2SF x with
  | S754_nan => Raise ValueError
  | S754_infinity _ => Raise OverflowError
  | S754_zero _ => Ok 0%Z
  | S754_finite s m e => Ok (cond_Zopp s (Z.shiftl (Zpos m) e))
  end.

(** [float(n)] for an [int] of any size: the nearest float, ties to
    even. *)
Definition float_of_Z (n : Z) : float :=
  SF2Prim (binary_normalize prec emax n 0 false).

(** [modf]: the fractional part of [x] and its integer part, the latter
    as an [int]. *)
Definition modf (x : float) : result (float * Z) :=
  i <== int_of_float x ;;
  Ok ((x - float_of_Z i)%float, i).

(** [math.floor] on a float, as the float [//] uses it. *)
Definition floor (x : float) : float :=
  match Prim2SF x with
  | S754_finite s m e => float_of_Z (Z.shiftl (cond_Zopp s (Zpos m)) e)
  | _ => x
  end.

(** [a / b] for two [int]s, [a] any and [b] not zero: the float nearest
    to the quotient. *)
Definition true_divide (a b : Z) : float :=
  match a with
  | Z0 => 0%float
  | _ =>
      let '(q, e, l) :=
        SFdiv_core_binary prec emax (Z.abs a) 0 (Z.abs b) 0 in
      SF2Prim (binary_round_aux prec emax (xorb (a <? 0)%Z (b <? 0)%Z)
                                q e l)
  end.

(** C's [fmod]: the remainder of [vx / wx] with the sign of [vx],
    computed without rounding. *)
Definition fmod (vx wx : float) : float :=
  match Prim2SF vx, Prim2SF wx with
  | S754_finite sx mx ex, S754_finite _ my ey =>
      let e := Z.min ex ey in
      let a := Z.shiftl (Zpos mx) (ex - e) in
      let b := Z.shiftl (Zpos my) (ey - e) in
      SF2Prim (binary_normalize prec emax (cond_Zopp sx (Z.rem a b)) e sx)
  | S754_zero _, S754_finite _ _ _ => vx
  | S754_finite _ _ _, S754_infinity _ => vx
  | S754_zero _, S754_infinity _ => vx
  | _, _ => nan
  end.

(** [copysign(0.0, wx)] *)
Definition copysign_zero (wx : float) : float :=
  if get_sign wx then (-0)%float else 0%float.

(** [vx % wx] on floats, for a divisor that is not zero (here the
    literals [3600] and [60]): the remainder takes the sign of the
    divisor. *)
Definition float_mod (vx wx : float) : float :=
  let md := fmod vx wx in
  if (md =? 0)%float then copysign_zero wx
  else if xorb (wx <? 0)%float (md <? 0)%float then (md + wx)%float
       else md.

(** [vx // wx] on floats, for a divisor that is not zero. *)
Definition float_floordiv (vx wx : float) : float :=
  let md := fmod vx wx in
  let div := ((vx - md) / wx)%float in
  let div :=
    if negb (md =? 0)%float && xorb (wx <? 0)%float (md <? 0)%float
    then (div - 1)%float else div in
  if (div =? 0)%float then copysign_zero (vx / wx)%float
  else
    let floordiv := floor div in
    if (0.5 <? div - floordiv)%float then (floordiv + 1)%float
    else floordiv.

(** ** [datetime.timedelta] *)

(** A [timedelta] holds whole days, seconds within the day and
    microseconds within the second. *)
Record timedelta := mk_timedelta {
  days : Z;
  seconds : Z;
  microseconds : Z
}.

(** The whole microsecond nearest to the fraction [leftover_us] of one,
    a tie going to the side that makes the total [x] even. *)
Definition whole_us (x : Z) (leftover_us : float) : Z :=
  let toward := if (leftover_us <? 0)%float then (-1)%Z else 1%Z in
  if (abs leftover_us <? 0.5)%float then 0%Z
  else if (abs leftover_us =? 0.5)%float
       then (if Z.odd x then toward else 0%Z)
       else toward.

(** [timedelta(seconds=secs)] for a float.  The integer part of [secs]
    is taken exactly; its fractional part is multiplied by [1e6] in
    floats and rounded to a whole microsecond.  The total is then split
    into days, seconds and microseconds, and more than [999999999] days
    either way raise [OverflowError]. *)
Definition timedelta_of_seconds (secs : float) : result timedelta :=
  '(fracpart, intpart) <== modf secs ;;
  us <==
    (let x := (intpart * 1000000)%Z in
     if (fracpart =? 0)%float then Ok x
     else
       '(leftover_us, intpart') <== modf (1000000 * fracpart)%float ;;
       let x := (x + intpart')%Z in
       Ok (x + whole_us x leftover_us)%Z) ;;
  let s := (us / 1000000)%Z in
  let d := (s / 86400)%Z in
  if (Z.abs d >? 999999999)%Z then Raise OverflowError
  else Ok (mk_timedelta d (s mod 86400) (us mod 1000000)).

(** [td.total_seconds()] *)
Definition total_seconds (td : timedelta) : float :=
  true_divide ((days td * 86400 + seconds td) * 1000000 + microseconds td)
              1000000.

(** ** Format specifications *)

Fixpoint digits (u : Decimal.uint) : str :=
  match u with
  | Decimal.Nil => []
  | Decimal.D0 r => 0x30%N :: digits r
  | Decimal.D1 r => 0x31%N :: digits r
  | Decimal.D2 r => 0x32%N :: digits r
  | Decimal.D3 r => 0x33%N :: digits r
  | Decimal.D4 r => 0x34%N :: digits r
  | Decimal.D5 r => 0x35%N :: digits r
  | Decimal.D6 r => 0x36%N :: digits r
  | Decimal.D7 r => 0x37%N :: digits r
  | Decimal.D8 r => 0x38%N :: digits r
  | Decimal.D9 r => 0x39%N :: digits r
  end.

(** The decimal digits of an [int] that is not negative. *)
Definition decimal (n : Z) : str := digits (N.to_uint (Z.to_N n)).

(** Zeros in front, up to [width] characters. *)
Definition zfill (width : nat) (s : str) : str :=
  repeat 0x30%N (width - List.length s) ++ s.

Definition minus_sign : str := [0x2D%N].

(** [f"{n:02d}"] *)
Definition format_02d (n : Z) : str :=
  if (n <? 0)%Z then minus_sign ++ zfill 1 (decimal (- n))
  else zfill 2 (decimal n).

(** [num / den] rounded to the nearest integer, ties to even. *)
Definition round_half_even (num den : Z) : Z :=
  let q := (num / den)%Z in
  let r := (num mod den)%Z in
  match (2 * r ?= den)%Z with
  | Lt => q
  | Gt => (q + 1)%Z
  | Eq => if Z.even q then q else (q + 1)%Z
  end.

(** The thousandths of [m * 2^e], rounded as [.3f] rounds. *)
Definition thousandths (m : positive) (e : Z) : Z :=
  if (0 <=? e)%Z then Z.shiftl (Zpos m * 1000) e
  else round_half_even (Zpos m * 1000) (Z.shiftl 1 (- e)).

(** [f"{x:06.3f}"] *)
Definition format_06_3f (x : float) : str :=
  match Prim2SF x with
  | S754_nan => of_string "000nan"
  | S754_infinity s =>
      if s then of_string "-00inf" else of_string "000inf"
  | S754_zero s =>
      if s then of_string "-0.000" else of_string "00.000"
  | S754_finite s m e =>
      let n := thousandths m e in
      let body :=
        decimal (n / 1000) ++ of_string "." ++ zfill 3 (decimal (n mod 1000))
      in
      if s then minus_sign ++ zfill 5 body else zfill 6 body
  end.

(** ** [format_vtt_time] *)

Definition format_vtt_time (secs : float) : result str :=
  td <== timedelta_of_seconds secs ;;
  hours <== int_of_float (float_floordiv (total_seconds td) 3600) ;;
  minutes <==
    int_of_float (float_floordiv (float_mod (total_seconds td) 3600) 60) ;;
  let secs := float_mod (total_seconds td) 60 in
  Ok (format_02d hours ++ of_string ":" ++ format_02d minutes
      ++ of_string ":" ++ format_06_3f secs).

End Clock.

(* ================================================================== *)
(** * tts_generator.py *)
(* ================================================================== *)

Module Tts.

(** One entry of [usage["projects"]] in [config/tts_usage.json]. *)
Record project := mk_project {
  project_id : string;
  month : Z;
  chars_used : Z
}.

(** One entry of [config["projects"]] in [config/tts_config.json]. *)
Record project_config := mk_project_config {
  cfg_project_id : string;
  key_path : string
}.

(** [config/tts_config.json]; [safety_limit] is read with a default by
    [select_project] and without one by [generate_audio]. *)
Record config := mk_config {
  safety_limit : option Z;
  projects : list project_config
}.

Definition usage := list project.

(** The two files; [None] when the file does not exist. *)
Record files := mk_files {
  config_file : option config;
  usage_file : option usage
}.

(** ** Calls that read and write the files and may raise *)

Definition M (A : Type) : Type := files -> result A * files.

Definition ret {A} (a : A) : M A := fun fs => (Ok a, fs).

Definition raise {A} (e : exn) : M A := fun fs => (Raise e, fs).

Definition bind {A B} (m : M A) (k : A -> M B) : M B :=
  fun fs =>
    match m fs with
    | (Ok a, fs') => k a fs'
    | (Raise e, fs') => (Raise e, fs')
    end.

Definition lift {A} (r : result A) : M A := fun fs => (r, fs).

Notation "x <- m ;; k" := (bind m (fun x => k))
  (at level 61, m at next level, right associativity).
Notation "m ;;; k" := (bind m (fun _ => k))
  (at level 61, right associativity).

Definition load_tts_config : M config :=
  fun fs =>
    match config_file fs with
    | None => raise FileNotFoundError fs
    | Some c => ret c fs
    end.

Definition save_usage_data (u : usage) : M unit :=
  fun fs => (Ok tt, mk_files (config_file fs) (Some u)).

(** The body of the rollover loop of [load_usage_data]. *)
Definition rollover (current_month : Z) (p : project) : project :=
  if (month p =? current_month)%Z then p
  else mk_project (project_id p) current_month 0.

(** [now_month] is [datetime.now().month] at the time of the call. *)
Definition load_usage_data (now_month : Z) : M usage :=
  fun fs =>
    match usage_file fs with
    | None =>
        (cfg <- load_tts_config ;;
         let u := map (fun p => mk_project (cfg_project_id p) now_month 0)
                      (projects cfg) in
         save_usage_data u ;;;
         ret u) fs
    | Some u =>
        (let u' := map (rollover now_month) u in
         save_usage_data u' ;;;
         ret u') fs
    end.

(** [min(l, key=...)] on a non-empty list [x :: xs]: the first of the
    least elements. *)
Fixpoint min_by {A} (key : A -> Z) (x : A) (xs : list A) : A :=
  match xs with
  | [] => x
  | y :: r => min_by key (if (key y <? key x)%Z then y else x) r
  end.

Definition default_safety_limit : Z := 800000.

Definition quota_exhausted : exn :=
  Exception "All projects at quota limit. Try again next month.".

Definition get_safety_limit (cfg : config) : Z :=
  match safety_limit cfg with
  | Some l => l
  | None => default_safety_limit
  end.

Definition select_project (cfg : config) (u : usage)
  : result (project * project_config) :=
  let limit := get_safety_limit cfg in
  let available := filter (fun p => (chars_used p <? limit)%Z) u in
  match available with
  | [] => Raise quota_exhausted
  | x :: xs =>
      let selected := min_by chars_used x xs in
      match find (fun p => String.eqb (cfg_project_id p) (project_id selected))
                 (projects cfg) with
      | Some project_cfg => Ok (selected, project_cfg)
      | None => Raise StopIteration
      end
  end.

(** The loop of [update_usage]: the first project with the id, then
    [break]. *)
Fixpoint add_usage (id : string) (chars : Z) (u : usage) : usage :=
  match u with
  | [] => []
  | p :: r =>
      if String.eqb (project_id p) id
      then mk_project (project_id p) (month p) (chars_used p + chars) :: r
      else p :: add_usage id chars r
  end.

Definition update_usage (now_month : Z) (id : string) (chars : Z) : M unit :=
  u <- load_usage_data now_month ;;
  save_usage_data (add_usage id chars u).

(** What [generate_audio] returns about the ledger. *)
Record receipt := mk_receipt {
  project_used : string;
  chars_used_this_request : Z;
  chars_remaining_this_project : Z
}.

(** The ledger steps of [generate_audio], in the order of the source.
    [chars] is [len(full_text)]; [synth] is the outcome of the calls
    between the selection and the recording (the speech client, the
    synthesis call and the write of [audio.mp3]), which do not touch the
    two files. *)
Definition generate_audio (now_month : Z) (chars : Z) (synth : result unit)
  : M receipt :=
  cfg <- load_tts_config ;;
  u <- load_usage_data now_month ;;
  sel <- lift (select_project cfg u) ;;
  lift synth ;;;
  update_usage now_month (project_id (fst sel)) chars ;;;
  usage_updated <- load_usage_data now_month ;;
  current_project <-
    lift (match find (fun p => String.eqb (project_id p) (project_id (fst sel)))
                     usage_updated with
          | Some p => Ok p
          | None => Raise StopIteration
          end) ;;
  limit <- lift (match safety_limit cfg with
                 | Some l => Ok l
                 | None => Raise (KeyError "safety_limit")
                 end) ;;
  ret (mk_receipt (project_id (fst sel)) chars
                  (limit - chars_used current_project)).

End Tts.

(* ================================================================== *)
(** * Facts about the string primitives *)
(* ================================================================== *)

Module TextFacts.
Import Text.

Definition no_space (w : str) : Prop :=
  Forall (fun c => isspace c = false) w.

Lemma space_isspace : isspace space = true.
Proof. reflexivity. Qed.

Lemma flush_app w ws xs : flush w (ws ++ xs) = flush w ws ++ xs.
Proof. destruct w; reflexivity. Qed.

Lemma flush_words w ws :
  no_space w -> Forall is_word ws -> Forall is_word (flush w ws).
Proof.
  intros Hw Hws. destruct w as [|c w]; simpl; [assumption|].
  constructor; [split; [discriminate | assumption] | assumption].
Qed.

(** What [split_go] returns: a pending run without whitespace and
    finished words. *)
Lemma split_go_words s :
  no_space (fst (split_go s)) /\ Forall is_word (snd (split_go s)).
Proof.
  induction s as [|c r [IHw IHws]]; simpl.
  - split; constructor.
  - destruct (split_go r) as [w ws]; simpl in *.
    destruct (isspace c) eqn:Hc; simpl.
    + split; [constructor | now apply flush_words].
    + split; [constructor; assumption | assumption].
Qed.

Lemma split_words s : Forall is_word (split s).
Proof.
  unfold split. pose proof (split_go_words s) as [Hw Hws].
  destruct (split_go s) as [w ws]. now apply flush_words.
Qed.

(** A run without whitespace in front of [q] joins the pending run of
    [q]. *)
Lemma split_go_prefix w q :
  no_space w ->
  split_go (w ++ q) = (w ++ fst (split_go q), snd (split_go q)).
Proof.
  induction 1 as [|c w Hc _ IH]; simpl.
  - now destruct (split_go q).
  - rewrite IH, Hc. reflexivity.
Qed.

Lemma split_word w : is_word w -> split w = [w].
Proof.
  intros [Hne Hns]. unfold split.
  rewrite <- (app_nil_r w) at 1. rewrite (split_go_prefix [] Hns). simpl.
  rewrite app_nil_r. destruct w; [contradiction | reflexivity].
Qed.

Lemma join_cons sep w x r :
  join sep (w :: x :: r) = w ++ sep ++ join sep (x :: r).
Proof. reflexivity. Qed.

(** [' '.join(ws).split() == ws] for a list of words. *)
Lemma split_join ws : Forall is_word ws -> split (join [space] ws) = ws.
Proof.
  induction 1 as [|w r Hw Hr IH]; [reflexivity|].
  destruct r as [|x r]; [now apply split_word|].
  rewrite join_cons. destruct Hw as [Hne Hns].
  unfold split. rewrite (split_go_prefix _ Hns).
  change ([space] ++ join [space] (x :: r))
    with (space :: join [space] (x :: r)).
  cbn [split_go]. rewrite space_isspace.
  unfold split in IH.
  destruct (split_go (join [space] (x :: r))) as [w' ws'].
  cbn [fst snd]. rewrite app_nil_r, IH.
  destruct w; [contradiction | reflexivity].
Qed.

(** The pieces of the sentence split and the text have the same words.
    Outside a match the first piece and the text also share their pending
    run, which is what the induction needs. *)
Lemma re_split_go_words s :
  forall st,
    match re_split_go st s with
    | [] => False
    | p :: ps =>
        (st <> InGap ->
         split_go s
         = (fst (split_go p),
            snd (split_go p) ++ List.concat (map split ps)))
        /\ List.concat (map split (p :: ps)) = split s
    end.
Proof.
  induction s as [|c r IH]; intro st.
  - simpl. split; reflexivity.
  - assert (Hpush :
      forall st',
        st' <> InGap ->
        match push c (re_split_go st' r) with
        | [] => False
        | p :: ps =>
            split_go (c :: r)
            = (fst (split_go p),
               snd (split_go p) ++ List.concat (map split ps))
            /\ List.concat (map split (p :: ps)) = split (c :: r)
        end).
    { intros st' Hst'. specialize (IH st').
      destruct (re_split_go st' r) as [|p ps]; [contradiction|].
      destruct IH as [IHs _]. specialize (IHs Hst').
      assert (Hs : split_go (c :: r)
                   = (fst (split_go (c :: p)),
                      snd (split_go (c :: p)) ++ List.concat (map split ps))).
      { cbn [split_go]. rewrite IHs.
        destruct (split_go p) as [w ws]; cbn [fst snd].
        destruct (isspace c); cbn [fst snd];
          [rewrite flush_app|]; reflexivity. }
      cbn [push]. split; [exact Hs|].
      cbn [map List.concat]. unfold split at 1 3. rewrite Hs.
      destruct (split_go (c :: p)) as [w ws]; cbn [fst snd].
      symmetry; apply flush_app. }
    assert (Hnext :
      (if is_terminator c then AfterTerminator else Plain) <> InGap)
      by (destruct (is_terminator c); discriminate).
    cbn [re_split_go].
    destruct (isspace c) eqn:Hc.
    + destruct st.
      * specialize (Hpush _ Hnext).
        destruct (push c _) as [|p ps]; [contradiction|].
        split; [intros _|]; apply Hpush.
      * specialize (IH InGap).
        destruct (re_split_go InGap r) as [|p ps]; [contradiction|].
        destruct IH as [_ IHw].
        assert (Hsp : split (c :: r) = split r).
        { unfold split. cbn [split_go]. rewrite Hc.
          destruct (split_go r); reflexivity. }
        split.
        -- intros _. cbn [split_go fst snd app]. rewrite Hc.
           rewrite IHw. unfold split. now destruct (split_go r).
        -- cbn [map List.concat]. change (split []) with (@nil str).
           cbn [app]. cbn [map List.concat] in IHw. now rewrite Hsp.
      * specialize (IH InGap).
        destruct (re_split_go InGap r) as [|p ps]; [contradiction|].
        destruct IH as [_ IHw].
        split; [intro Hst; now elim Hst|].
        rewrite IHw. unfold split. cbn [split_go]. rewrite Hc.
        now destruct (split_go r).
    + assert (Hgo : match st, false with
                     | InGap, true => re_split_go InGap r
                     | AfterTerminator, true => [] :: re_split_go InGap r
                     | _, _ =>
                         push c (re_split_go
                           (if is_terminator c then AfterTerminator
                            else Plain) r)
                     end
                     = push c (re_split_go
                           (if is_terminator c then AfterTerminator
                            else Plain) r))
        by (destruct st; reflexivity).
      rewrite Hgo. specialize (Hpush _ Hnext).
      destruct (push c _) as [|p ps]; [contradiction|].
      split; [intros _|]; apply Hpush.
Qed.

Lemma re_split_words text :
  List.concat (map split (re_split_sentences text)) = split text.
Proof.
  unfold re_split_sentences.
  pose proof (re_split_go_words text Plain) as H.
  destruct (re_split_go Plain text); [contradiction | apply H].
Qed.

End TextFacts.

(* ================================================================== *)
(** * The segmenter *)
(* ================================================================== *)

Module SegmenterFacts.
Import Text TextFacts Script.

(** The words a loop state holds: those of the closed segments, then the
    open one. *)
Definition words_of (st : seg_state) : list str :=
  List.concat (map split (segments st)) ++ current_segment st.

Record seg_inv (st : seg_state) : Prop := mk_seg_inv {
  inv_current : Forall is_word (current_segment st);
  inv_segments : Forall (fun s => split s <> []) (segments st)
}.

Lemma concat_split_snoc l s :
  List.concat (map split (l ++ [s])) = List.concat (map split l) ++ split s.
Proof. now rewrite map_app, concat_app; simpl; rewrite app_nil_r. Qed.

Lemma has_word_nonempty s : split s <> [] -> s <> [].
Proof. intros H ->. now apply H. Qed.

Lemma seg_init_inv : seg_inv seg_init.
Proof. split; constructor. Qed.

Lemma seg_word_spec limit st word :
  is_word word -> seg_inv st ->
  seg_inv (seg_word limit st word)
  /\ words_of (seg_word limit st word) = words_of st ++ [word].
Proof.
  intros Hw [Hcur Hsegs]. unfold seg_word, words_of.
  destruct (len _ >? limit)%Z.
  - destruct (current_segment st) as [|w cur] eqn:Ecur; cbn [segments current_segment].
    + split; [split|].
      * constructor.
      * apply Forall_app. split; [assumption|].
        constructor; [|constructor]. now rewrite split_word.
      * rewrite concat_split_snoc, split_word, !app_nil_r by assumption.
        reflexivity.
    + split; [split|].
      * now constructor.
      * apply Forall_app. split; [assumption|].
        constructor; [|constructor]. now rewrite split_join.
      * rewrite concat_split_snoc, split_join by assumption.
        reflexivity.
  - cbn [segments current_segment]. split; [split|].
    + apply Forall_app. split; [assumption | now constructor].
    + assumption.
    + now rewrite app_assoc.
Qed.

Lemma seg_words_spec limit ws :
  Forall is_word ws ->
  forall st, seg_inv st ->
  seg_inv (fold_left (seg_word limit) ws st)
  /\ words_of (fold_left (seg_word limit) ws st) = words_of st ++ ws.
Proof.
  induction 1 as [|w ws Hw _ IH]; intros st Hst; simpl.
  - now rewrite app_nil_r.
  - destruct (seg_word_spec limit Hw Hst) as [Hinv Heq].
    destruct (IH _ Hinv) as [Hinv' Heq'].
    split; [assumption|]. rewrite Heq', Heq, <- app_assoc. reflexivity.
Qed.

Lemma seg_sentences_spec limit sentences :
  forall st, seg_inv st ->
  seg_inv (fold_left (seg_sentence limit) sentences st)
  /\ words_of (fold_left (seg_sentence limit) sentences st)
     = words_of st ++ List.concat (map split sentences).
Proof.
  induction sentences as [|s r IH]; intros st Hst; simpl.
  - now rewrite app_nil_r.
  - destruct (seg_words_spec limit (split_words s) Hst) as [Hinv Heq].
    fold (seg_sentence limit st s) in Hinv, Heq.
    destruct (IH _ Hinv) as [Hinv' Heq'].
    split; [assumption|].
    rewrite Heq', Heq, <- app_assoc. reflexivity.
Qed.

Lemma seg_finish_spec st :
  seg_inv st ->
  Forall (fun s => split s <> []) (seg_finish st)
  /\ List.concat (map split (seg_finish st)) = words_of st.
Proof.
  intros [Hcur Hsegs]. unfold seg_finish, words_of.
  destruct (current_segment st) as [|w cur] eqn:Ecur.
  - now rewrite app_nil_r.
  - split.
    + apply Forall_app. split; [assumption|].
      constructor; [|constructor]. now rewrite split_join.
    + now rewrite concat_split_snoc, split_join.
Qed.

(** The segments hold the words of the text, and each holds a word. *)
Lemma split_into_segments_spec text max_chars_per_line max_lines :
  Forall (fun s => split s <> [])
         (split_into_segments text max_chars_per_line max_lines)
  /\ List.concat
       (map split (split_into_segments text max_chars_per_line max_lines))
     = split text.
Proof.
  unfold split_into_segments.
  destruct (seg_sentences_spec (max_chars_per_line * max_lines)
              (re_split_sentences text) seg_init_inv) as [Hinv Heq].
  destruct (seg_finish_spec Hinv) as [Hne Hw].
  split; [assumption|].
  rewrite Hw, Heq. apply re_split_words.
Qed.


(** C2.  For every text and every limit, the words of the segments that
    [split_into_segments] returns, taken in order, are the words of the
    text ([text.split()]): none is dropped, repeated or moved; and no
    segment is the empty string. *)
Theorem segments_reconstruct_words :
  forall (text : str) (max_chars_per_line max_lines : Z),
    List.concat
      (map split (split_into_segments text max_chars_per_line max_lines))
    = split text
    /\ Forall (fun segment => segment <> [])
              (split_into_segments text max_chars_per_line max_lines).
Proof.
  intros text mc ml.
  destruct (split_into_segments_spec text mc ml) as [Hne Hw].
  split; [assumption|].
  eapply Forall_impl; [|exact Hne]. intros s. apply has_word_nonempty.
Qed.

End SegmenterFacts.

(* ================================================================== *)
(** * The two track builders *)
(* ================================================================== *)

Module TrackFacts.
Import Text TextFacts Script SegmenterFacts.

(** The intervals of a finished build, or the exception it raised. *)
Definition intervals_of {A : arith} (r : result (list (cue A)))
  : result (list (num A * num A)) :=
  match r with
  | Ok cues => Ok (map (@interval A) cues)
  | Raise e => Raise e
  end.

Section Generic.
Variable A : arith.
Variable emphasis : str -> str.

(** The cues a loop appends from [current_time = t], one per payload. *)
Fixpoint cues_from (d t : num A) (payload : list (list str))
  : list (cue A) :=
  match payload with
  | [] => []
  | l :: r => mk_cue A t (add A t d) l :: cues_from d (add A t d) r
  end.

Definition tts_text (entry : nat * str) : list str :=
  [emphasis (if Nat.eqb (fst entry) 0 then rate_slow (snd entry)
             else snd entry)].

Definition caption_text (max_chars : Z) (segment : str) : list str :=
  firstn 2 (wrap_lines max_chars segment).

Lemma tts_fold d entries :
  forall t cues,
    snd (fold_left (tts_step emphasis d) entries (t, cues))
    = cues ++ cues_from d t (map tts_text entries).
Proof.
  induction entries as [|[i s] r IH]; intros t cues; simpl.
  - now rewrite app_nil_r.
  - rewrite IH, <- app_assoc. reflexivity.
Qed.

Lemma captions_fold max_chars d segs :
  forall t cues,
    snd (fold_left (captions_step max_chars d) segs (t, cues))
    = cues ++ cues_from d t (map (caption_text max_chars) segs).
Proof.
  induction segs as [|s r IH]; intros t cues; simpl.
  - now rewrite app_nil_r.
  - rewrite IH, <- app_assoc. reflexivity.
Qed.

Lemma cues_from_intervals d payload :
  forall t,
    map (@interval A) (cues_from d t payload)
    = summed A d (List.length payload) t.
Proof.
  induction payload as [|l r IH]; intro t; simpl; [reflexivity|].
  now rewrite IH.
Qed.

Lemma cues_from_lines d payload :
  forall t, map (@lines A) (cues_from d t payload) = payload.
Proof.
  induction payload as [|l r IH]; intro t; simpl; [reflexivity|].
  now rewrite IH.
Qed.

Lemma enumerate_length (l : list str) :
  List.length (enumerate l) = List.length l.
Proof.
  unfold enumerate. rewrite length_combine, length_seq. apply Nat.min_id.
Qed.

Lemma len_zero {X} (l : list X) : (len l =? 0)%Z = true <-> l = [].
Proof.
  unfold len. rewrite Z.eqb_eq. destruct l; simpl; [tauto|].
  split; [lia | discriminate].
Qed.

(** The intervals of a build are those of [summed], and the build fails
    exactly when there is no segment. *)
Lemma tts_intervals text total :
  intervals_of (generate_tts_vtt A emphasis text total)
  = match split_into_segments text default_max_chars default_max_lines
    with
    | [] => Raise ZeroDivisionError
    | (_ :: _) as segs =>
        Ok (summed A (div_int A total (len segs)) (List.length segs)
                   (zero A))
    end.
Proof.
  unfold generate_tts_vtt, divide.
  destruct (split_into_segments text default_max_chars default_max_lines)
    as [|s r] eqn:E; [reflexivity|].
  destruct (len (s :: r) =? 0)%Z eqn:Hn;
    [apply len_zero in Hn; discriminate|].
  cbn [intervals_of]. rewrite tts_fold. cbn [app].
  now rewrite cues_from_intervals, length_map, enumerate_length.
Qed.

Lemma captions_intervals text total max_chars :
  intervals_of (generate_captions_vtt A text total max_chars)
  = match split_into_segments text max_chars default_max_lines with
    | [] => Raise ZeroDivisionError
    | (_ :: _) as segs =>
        Ok (summed A (div_int A total (len segs)) (List.length segs)
                   (zero A))
    end.
Proof.
  unfold generate_captions_vtt, divide.
  destruct (split_into_segments text max_chars default_max_lines)
    as [|s r] eqn:E; [reflexivity|].
  destruct (len (s :: r) =? 0)%Z eqn:Hn;
    [apply len_zero in Hn; discriminate|].
  cbn [intervals_of]. rewrite captions_fold. cbn [app].
  now rewrite cues_from_intervals, length_map.
Qed.

(** *** The shape of [summed] *)


Lemma summed_chained d n : forall t, chained A t (summed A d n t).
Proof. induction n; intro t; simpl; [exact I | split; auto]. Qed.

Lemma add_times_shift d i t :
  add_times A d i (add A t d) = add_times A d (S i) t.
Proof.
  unfold add_times. induction i; simpl; [reflexivity|].
  now rewrite IHi.
Qed.

(** The [i]-th interval runs from [i] additions of [d] to [i + 1]. *)
Lemma summed_add_times d n :
  forall t,
    summed A d n t
    = map (fun i => (add_times A d i t, add_times A d (S i) t)) (seq 0 n).
Proof.
  induction n as [|n IH]; intro t; [reflexivity|].
  cbn [summed seq map]. rewrite IH, <- seq_shift, map_map.
  f_equal. apply map_ext. intro i. now rewrite !add_times_shift.
Qed.



End Generic.

(** *** Wrapping a segment into display lines *)

Section Wrap.
Variable max_chars : Z.
Variable W : list str.

Definition line_ok (line : str) : Prop :=
  (len line <= max_chars)%Z \/ In line W.

Definition current_ok (current_line : list str) : Prop :=
  current_line = []
  \/ (len (join [space] current_line) <= max_chars)%Z
  \/ exists w, current_line = [w] /\ In w W.

Lemma current_ok_line cur :
  cur <> [] -> current_ok cur -> line_ok (join [space] cur).
Proof.
  intros Hne [->|[Hlen|(w & -> & Hw)]].
  - now elim Hne.
  - now left.
  - now right.
Qed.

Lemma wrap_word_inv st word :
  In word W ->
  Forall line_ok (fst st) -> current_ok (snd st) ->
  Forall line_ok (fst (wrap_word max_chars st word))
  /\ current_ok (snd (wrap_word max_chars st word)).
Proof.
  intros Hw Hl Hc. destruct st as [lns cur]. cbn [fst snd] in *.
  unfold wrap_word.
  destruct (len (join [space] (cur ++ [word])) >? max_chars)%Z eqn:Hover.
  - destruct cur as [|w cur]; cbn [fst snd].
    + split; [|now left].
      apply Forall_app. split; [assumption|].
      constructor; [now right | constructor].
    + split.
      * apply Forall_app. split; [assumption|].
        constructor; [|constructor].
        apply current_ok_line; [discriminate | assumption].
      * right; right. now exists word.
  - cbn [fst snd]. split; [assumption|].
    right; left. lia.
Qed.

Lemma wrap_words_inv ws :
  Forall (fun w => In w W) ws ->
  forall st,
    Forall line_ok (fst st) -> current_ok (snd st) ->
    Forall line_ok (fst (fold_left (wrap_word max_chars) ws st))
    /\ current_ok (snd (fold_left (wrap_word max_chars) ws st)).
Proof.
  induction 1 as [|w ws Hw _ IH]; intros st Hl Hc; simpl.
  - now split.
  - destruct (wrap_word_inv st w Hw Hl Hc) as [Hl' Hc']. now apply IH.
Qed.

End Wrap.

(** Every line of a wrapped segment is within the width or one of its
    words. *)
Lemma wrap_lines_ok max_chars segment :
  Forall (line_ok max_chars (split segment)) (wrap_lines max_chars segment).
Proof.
  unfold wrap_lines.
  assert (Hin : Forall (fun w => In w (split segment)) (split segment))
    by (apply Forall_forall; auto).
  destruct (@wrap_words_inv max_chars (split segment) (split segment) Hin
              ([], [])) as [Hl Hc]; [constructor | now left |].
  destruct (fold_left _ _ _) as [lns cur]. cbn [fst snd] in *.
  destruct cur as [|w cur]; [assumption|].
  apply Forall_app. split; [assumption|].
  constructor; [|constructor].
  apply current_ok_line; [discriminate | assumption].
Qed.

End TrackFacts.

(* ================================================================== *)
(** * The timeline in exact arithmetic *)
(* ================================================================== *)

Module ExactFacts.
Import Text Script TrackFacts.
Local Open Scope Q_scope.

(** Without rounding, [i] additions of [d] are one multiplication. *)
Lemma add_times_exact (d : Q) (i : nat) (t : Q) :
  add_times exact d i t == t + inject_Z (Z.of_nat i) * d.
Proof.
  unfold add_times. induction i as [|i IH].
  - simpl. ring.
  - change (Nat.iter (S i) (fun x => add exact x d) t)
      with (Nat.iter i (fun x => add exact x d) t + d).
    rewrite IH, Nat2Z.inj_succ, <- Z.add_1_r, inject_Z_plus. ring.
Qed.

End ExactFacts.

(* ================================================================== *)
(** * Sums of non-negative floats *)
(* ================================================================== *)

(** [current_time + duration_per_segment] is a rounded sum.  This
    section shows, from the specification of binary64 addition, that
    adding a float that is not negative never gives less than the first
    term, and that the share of a positive duration is not negative. *)
Module FloatFacts.
Local Open Scope Z_scope.

Lemma digits2_size (m : positive) : digits2_pos m = Pos.size m.
Proof. induction m; simpl; congruence. Qed.

Lemma digits_bounds (m : positive) :
  2 ^ (Zpos (digits2_pos m) - 1) <= Zpos m < 2 ^ Zpos (digits2_pos m).
Proof.
  induction m as [m IH|m IH|]; cbn [digits2_pos].
  - rewrite Pos2Z.inj_succ.
    replace (Z.succ (Zpos (digits2_pos m)) - 1)
      with (Z.succ (Zpos (digits2_pos m) - 1)) by lia.
    rewrite !Z.pow_succ_r by lia. lia.
  - rewrite Pos2Z.inj_succ.
    replace (Z.succ (Zpos (digits2_pos m)) - 1)
      with (Z.succ (Zpos (digits2_pos m) - 1)) by lia.
    rewrite !Z.pow_succ_r by lia. lia.
  - simpl. lia.
Qed.

Lemma Zdigits2_bounds (m : Z) :
  0 < m -> 2 ^ (Zdigits2 m - 1) <= m < 2 ^ Zdigits2 m.
Proof. destruct m; try lia. intros _. apply digits_bounds. Qed.

Lemma Zdigits2_pos (m : Z) : 0 < m -> 0 < Zdigits2 m.
Proof. destruct m; simpl; lia. Qed.

Lemma Zdigits2_upper (m k : Z) : 0 < m -> m < 2 ^ k -> Zdigits2 m <= k.
Proof.
  intros Hm Hk. pose proof (Zdigits2_bounds Hm) as [Hlo _].
  pose proof (Zdigits2_pos Hm).
  destruct (Z_lt_le_dec k (Zdigits2 m)) as [Hlt|]; [|assumption].
  assert (2 ^ k <= 2 ^ (Zdigits2 m - 1)).
  { apply Z.pow_le_mono_r; lia. }
  lia.
Qed.

Lemma Zdigits2_lower (m k : Z) : 0 <= k -> 2 ^ k <= m -> k < Zdigits2 m.
Proof.
  intros Hk Hm.
  assert (0 < m) by (pose proof (Z.pow_pos_nonneg 2 k); lia).
  pose proof (Zdigits2_bounds H) as [_ Hhi].
  apply (Z.pow_lt_mono_r_iff 2); [lia | pose proof (Zdigits2_pos H); lia | lia].
Qed.

(** ** Shifts *)

Lemma shr_1_m (mrs : shr_record) :
  0 <= shr_m mrs -> shr_m (shr_1 mrs) = shr_m mrs / 2.
Proof.
  destruct mrs as [m r s]. cbn [shr_m]. intro Hm. unfold shr_1.
  destruct m as [|p|p]; [reflexivity | | lia].
  destruct p as [p|p|]; cbn [shr_m].
  - rewrite Pos2Z.inj_xI. apply Z.div_unique with 1; lia.
  - rewrite Pos2Z.inj_xO. apply Z.div_unique with 0; lia.
  - reflexivity.
Qed.

Lemma iter_shr_1_m (p : positive) :
  forall mrs,
    0 <= shr_m mrs ->
    shr_m (iter_pos shr_1 p mrs) = shr_m mrs / 2 ^ Zpos p.
Proof.
  assert (Hnn : forall mrs, 0 <= shr_m mrs -> 0 <= shr_m (shr_1 mrs)).
  { intros mrs H. rewrite shr_1_m by assumption.
    apply Z.div_pos; lia. }
  induction p as [p IH|p IH|]; intros mrs Hm; cbn [iter_pos].
  - assert (H1 : 0 <= shr_m (iter_pos shr_1 p (shr_1 mrs))).
    { rewrite IH by auto. apply Z.div_pos; [auto | lia]. }
    rewrite IH, IH, shr_1_m by auto.
    rewrite !Z.div_div by lia.
    f_equal. rewrite (Pos2Z.inj_xI p).
    replace (2 * Zpos p + 1) with (1 + Zpos p + Zpos p) by lia.
    rewrite (Z.pow_add_r 2 (1 + Zpos p) (Zpos p)) by lia.
    rewrite (Z.pow_add_r 2 1 (Zpos p)) by lia. change (2 ^ 1) with 2. lia.
  - assert (H1 : 0 <= shr_m (iter_pos shr_1 p mrs)).
    { rewrite IH by auto. apply Z.div_pos; [auto | lia]. }
    rewrite IH, IH by auto.
    rewrite !Z.div_div by lia.
    f_equal. rewrite (Pos2Z.inj_xO p).
    replace (2 * Zpos p) with (Zpos p + Zpos p) by lia.
    rewrite (Z.pow_add_r 2 (Zpos p) (Zpos p)) by lia. reflexivity.
  - rewrite shr_1_m by assumption. reflexivity.
Qed.

Lemma shr_spec (mrs : shr_record) (e n : Z) :
  0 <= shr_m mrs ->
  shr_m (fst (shr mrs e n)) = shr_m mrs / 2 ^ Z.max n 0
  /\ snd (shr mrs e n) = e + Z.max n 0.
Proof.
  intro Hm. unfold shr. destruct n as [|p|p]; cbn [fst snd].
  - simpl. rewrite Z.div_1_r. split; [reflexivity | lia].
  - rewrite iter_shr_1_m by assumption.
    replace (Z.max (Zpos p) 0) with (Zpos p) by lia. now split.
  - replace (Z.max (Zneg p) 0) with 0 by lia. simpl.
    rewrite Z.div_1_r. split; [reflexivity | lia].
Qed.

Lemma shr_record_of_loc_m (m : Z) (l : location) :
  shr_m (shr_record_of_loc m l) = m.
Proof. destruct l as [|[]]; reflexivity. Qed.

Lemma round_nearest_even_bounds (m : Z) (l : location) :
  m <= round_nearest_even m l <= m + 1.
Proof.
  unfold round_nearest_even. destruct l as [|[]]; try lia.
  destruct (Z.even m); lia.
Qed.

Lemma iter_xO (m d : positive) :
  Zpos (Pos.iter xO m d) = Zpos m * 2 ^ Zpos d.
Proof.
  induction d as [|d IH] using Pos.peano_ind.
  - cbn [Pos.iter]. rewrite (Pos2Z.inj_xO m). change (2 ^ 1) with 2. lia.
  - rewrite Pos.iter_succ, (Pos2Z.inj_xO (Pos.iter xO m d)), IH,
      Pos2Z.inj_succ, Z.pow_succ_r by lia. lia.
Qed.

(** ** Rounding a non-negative mantissa *)

Definition fexp64 (e : Z) : Z := Z.max (e - 53) (-1074).

Lemma fexp_eq (e : Z) : fexp prec emax e = fexp64 e.
Proof. reflexivity. Qed.

(** The steps of [binary_round_aux]: a shift to the exponent of the
    format, the rounding of the last place, and one more shift when the
    rounding carried into a new digit. *)
Lemma binary_round_aux_spec (sx : bool) (mx ex : Z) (lx : location) :
  0 <= mx ->
  let n1 := Z.max (fexp64 (Zdigits2 mx + ex) - ex) 0 in
  let m1 := mx / 2 ^ n1 in
  let e1 := ex + n1 in
  exists m2,
    m1 <= m2 <= m1 + 1
    /\ let n2 := Z.max (fexp64 (Zdigits2 m2 + e1) - e1) 0 in
       let m3 := m2 / 2 ^ n2 in
       let e3 := e1 + n2 in
       binary_round_aux prec emax sx mx ex lx
       = match m3 with
         | Z0 => S754_zero sx
         | Zpos m => if e3 <=? 971 then S754_finite sx m e3
                     else S754_infinity sx
         | Zneg _ => S754_nan
         end.
Proof.
  intros Hm n1 m1 e1. unfold binary_round_aux, shr_fexp.
  rewrite !fexp_eq.
  pose proof (@shr_spec (shr_record_of_loc mx lx) ex
                (fexp64 (Zdigits2 mx + ex) - ex)) as H1.
  rewrite shr_record_of_loc_m in H1. specialize (H1 Hm).
  destruct (shr (shr_record_of_loc mx lx) ex _) as [mrs' e'].
  cbn [fst snd] in H1. destruct H1 as [Hm1 He1].
  fold n1 in Hm1, He1. fold m1 in Hm1. fold e1 in He1.
  set (m2 := round_nearest_even (shr_m mrs') (loc_of_shr_record mrs')).
  exists m2.
  pose proof (round_nearest_even_bounds (shr_m mrs')
                (loc_of_shr_record mrs')) as Hb.
  fold m2 in Hb. rewrite Hm1 in Hb. split; [exact Hb|].
  assert (Hm1nn : 0 <= m1).
  { apply Z.div_pos; [assumption|]. apply Z.pow_pos_nonneg; lia. }
  pose proof (@shr_spec (shr_record_of_loc m2 loc_Exact) e'
                (fexp64 (Zdigits2 m2 + e') - e')) as H2.
  rewrite shr_record_of_loc_m in H2. specialize (H2 ltac:(lia)).
  destruct (shr (shr_record_of_loc m2 loc_Exact) e' _) as [mrs'' e''].
  cbn [fst snd] in H2. destruct H2 as [Hm3 He3].
  subst e'. cbv zeta. rewrite Hm3, He3.
  reflexivity.
Qed.

(** ** Non-negative numbers *)

Definition nonneg (x : spec_float) : Prop :=
  match x with
  | S754_zero _ => True
  | S754_infinity s => s = false
  | S754_finite s _ _ => s = false
  | S754_nan => False
  end.

Lemma binary_round_aux_nonneg (mx ex : Z) (lx : location) :
  0 <= mx -> nonneg (binary_round_aux prec emax false mx ex lx).
Proof.
  intro Hm.
  destruct (@binary_round_aux_spec false mx ex lx Hm) as (m2 & Hb & ->).
  cbv zeta.
  set (m3 := m2 / _).
  assert (H3 : 0 <= m3).
  { apply Z.div_pos; [|apply Z.pow_pos_nonneg; lia].
    assert (0 <= mx / 2 ^ Z.max (fexp64 (Zdigits2 mx + ex) - ex) 0)
      by (apply Z.div_pos; [assumption | apply Z.pow_pos_nonneg; lia]).
    lia. }
  destruct m3 as [|p|p]; [exact I | | lia].
  destruct (_ <=? _); reflexivity.
Qed.


Lemma binary_round_aux_small (mx ex : Z) (lx : location) :
  0 <= mx -> ex <= 971 -> Zdigits2 mx + ex <= 1023 ->
  match binary_round_aux prec emax false mx ex lx with
  | S754_zero s | S754_finite s _ _ => s = false
  | _ => False
  end.
Proof.
  intros Hm He Hmag.
  destruct (@binary_round_aux_spec false mx ex lx Hm) as (m2 & Hb & ->).
  cbv zeta.
  set (n1 := Z.max (fexp64 (Zdigits2 mx + ex) - ex) 0) in *.
  set (m1 := mx / 2 ^ n1) in *.
  set (e1 := ex + n1) in *.
  set (n2 := Z.max (fexp64 (Zdigits2 m2 + e1) - e1) 0).
  assert (Hn1 : 0 <= n1) by (unfold n1; lia).
  assert (Hp1 : 0 < 2 ^ n1) by (apply Z.pow_pos_nonneg; lia).
  assert (Hm1 : 0 <= m1) by (apply Z.div_pos; assumption).
  assert (He1 : e1 <= 971) by (unfold e1, n1, fexp64; lia).
  assert (Hd2 : Zdigits2 m2 + e1 <= 1024).
  { destruct (Z.eq_dec m2 0) as [->|Hne]; [simpl; lia|].
    assert (H2 : 0 < m2) by lia.
    destruct (Z.eq_dec mx 0) as [Hx|Hx].
    - assert (m1 = 0) by (unfold m1; rewrite Hx; apply Z.div_0_l; lia).
      pose proof (@Zdigits2_upper m2 1 H2 ltac:(simpl; lia)). lia.
    - assert (Hx' : 0 < mx) by lia.
      pose proof (Zdigits2_bounds Hx') as [_ Hhi].
      pose proof (Zdigits2_pos Hx') as Hdp.
      destruct (Z_le_gt_dec n1 (Zdigits2 mx)) as [Hle|Hgt].
      + assert (Hlt : m1 < 2 ^ (Zdigits2 mx - n1)).
        { apply Z.div_lt_upper_bound; [assumption|].
          rewrite <- Z.pow_add_r by lia.
          replace (n1 + (Zdigits2 mx - n1)) with (Zdigits2 mx) by lia.
          exact Hhi. }
        assert (Hup : m2 < 2 ^ (Zdigits2 mx - n1 + 1)).
        { rewrite Z.pow_add_r by lia. change (2 ^ 1) with 2. lia. }
        pose proof (@Zdigits2_upper m2 _ H2 Hup). unfold e1. lia.
      + assert (Hz : m1 = 0).
        { apply Z.div_small. split; [lia|].
          apply Z.lt_le_trans with (2 ^ Zdigits2 mx); [exact Hhi|].
          apply Z.pow_le_mono_r; lia. }
        pose proof (@Zdigits2_upper m2 1 H2 ltac:(simpl; lia)). lia. }
  assert (He3 : e1 + n2 <= 971) by (unfold n2, fexp64; lia).
  assert (H3 : 0 <= m2 / 2 ^ n2).
  { apply Z.div_pos; [lia | apply Z.pow_pos_nonneg; unfold n2; lia]. }
  destruct (m2 / 2 ^ n2) as [|p|p]; [reflexivity | | lia].
  apply Z.leb_le in He3. now rewrite He3.
Qed.

(** ** Canonical numbers and their order *)

Lemma bounded_canonical (m : positive) (e : Z) :
  bounded prec emax m e = true ->
  fexp64 (Zpos (digits2_pos m) + e) = e.
Proof.
  unfold bounded, canonical_mantissa. rewrite fexp_eq.
  intro H. apply andb_true_iff in H. destruct H as [H _].
  now apply Z.eqb_eq in H.
Qed.

(** [r] is a positive number, or [+inf], that is at least the canonical
    positive number of mantissa [mx] and exponent [ex]. *)
Definition at_least (mx : positive) (ex : Z) (r : spec_float) : Prop :=
  match r with
  | S754_infinity s => s = false
  | S754_finite s m e =>
      s = false /\ (ex < e \/ (e = ex /\ Zpos mx <= Zpos m))
  | _ => False
  end.

Lemma at_least_leb (mx : positive) (ex : Z) (r : spec_float) :
  at_least mx ex r -> SFleb (S754_finite false mx ex) r = true.
Proof.
  destruct r as [s|s| |s m e]; cbn [at_least]; try contradiction.
  - intros ->. reflexivity.
  - intros [-> [Hlt|[-> Hle]]]; unfold SFleb, SFcompare.
    + apply Z.compare_lt_iff in Hlt. now rewrite Hlt.
    + rewrite Z.compare_refl.
      change (Pos.compare_cont Eq mx m) with (Pos.compare mx m).
      change (Zpos mx <= Zpos m) with (mx <= m)%positive in Hle.
      unfold Pos.le in Hle.
      destruct (Pos.compare mx m); [reflexivity | reflexivity | now elim Hle].
Qed.

Lemma at_least_nonneg (mx : positive) (ex : Z) (r : spec_float) :
  at_least mx ex r -> nonneg r.
Proof.
  destruct r as [s|s| |s m e]; cbn [at_least nonneg]; try tauto.
Qed.

Lemma shl_align_fst (mx : positive) (ex ez : Z) :
  ez <= ex ->
  Zpos (fst (shl_align mx ex ez)) = Zpos mx * 2 ^ (ex - ez).
Proof.
  intro H. unfold shl_align.
  destruct (ez - ex) as [|p|p] eqn:E; cbn [fst].
  - replace (ex - ez) with 0 by lia. simpl. lia.
  - lia.
  - rewrite iter_xO. f_equal. f_equal. lia.
Qed.

(** Rounding a number that is at least a canonical one gives at least
    that one. *)
Lemma binary_round_at_least (mx : positive) (ex : Z) (M : positive) (ez : Z) :
  bounded prec emax mx ex = true ->
  ez <= ex ->
  Zpos mx * 2 ^ (ex - ez) <= Zpos M ->
  at_least mx ex (binary_round prec emax false M ez).
Proof.
  intros Hb Hez HM. apply bounded_canonical in Hb.
  set (dx := Zpos (digits2_pos mx)) in *.
  set (D := Zpos (digits2_pos M)).
  pose proof (digits_bounds mx) as [Hxlo _]. fold dx in Hxlo.
  pose proof (digits_bounds M) as [HMlo HMhi]. fold D in HMlo, HMhi.
  assert (Hdx : 0 < dx) by (unfold dx; lia).
  assert (HD : 0 < D) by (unfold D; lia).
  assert (Hmag : dx + (ex - ez) <= D).
  { assert (H : 2 ^ (dx - 1 + (ex - ez)) < 2 ^ D).
    { rewrite Z.pow_add_r by lia.
      apply Z.le_lt_trans with (Zpos M); [|exact HMhi].
      apply Z.le_trans with (Zpos mx * 2 ^ (ex - ez)); [|exact HM].
      apply Z.mul_le_mono_nonneg_r; [apply Z.pow_nonneg; lia | exact Hxlo]. }
    apply Z.pow_lt_mono_r_iff in H; lia. }
  set (f := fexp64 (D + ez)).
  assert (Hf : ex <= f) by (unfold f, fexp64 in *; lia).
  assert (Hex : -1074 <= ex) by (unfold fexp64 in Hb; lia).
  unfold binary_round. rewrite fexp_eq. fold D. fold f.
  assert (Hal : shl_align M ez f = (M, ez)).
  { unfold shl_align. destruct (f - ez) eqn:E; try reflexivity. lia. }
  rewrite Hal.
  destruct (@binary_round_aux_spec false (Zpos M) ez loc_Exact
              ltac:(lia)) as (m2 & Hm2 & ->).
  cbv zeta. cbn [Zdigits2] in Hm2 |- *. fold D in Hm2 |- *.
  fold f in Hm2 |- *.
  replace (Z.max (f - ez) 0) with (f - ez) in * by lia.
  replace (ez + (f - ez)) with f in * by lia.
  set (m1 := Zpos M / 2 ^ (f - ez)) in *.
  assert (Hp : 0 < 2 ^ (f - ez)) by (apply Z.pow_pos_nonneg; lia).
  assert (Hm1 : 1 <= m1 /\ (f = ex -> Zpos mx <= m1)).
  { split.
    - destruct (Z.eq_dec f ex) as [E|E].
      + apply Z.le_trans with (Zpos mx); [lia|].
        apply Z.div_le_lower_bound; [assumption|]. rewrite E. lia.
      + assert (Ef : f = D + ez - 53) by (unfold f, fexp64 in *; lia).
        apply Z.div_le_lower_bound; [assumption|].
        apply Z.le_trans with (2 ^ (D - 1)); [|exact HMlo].
        rewrite Z.mul_1_r. apply Z.pow_le_mono_r; lia.
    - intros E. apply Z.div_le_lower_bound; [assumption|]. rewrite E. lia. }
  destruct Hm1 as [Hm1 Hm1x].
  assert (H2 : 0 < m2) by lia.
  pose proof (Zdigits2_bounds H2) as [H2lo _].
  pose proof (Zdigits2_pos H2) as Hd2.
  set (n2 := Z.max (fexp64 (Zdigits2 m2 + f) - f) 0).
  assert (Hn2 : 0 <= n2) by (unfold n2; lia).
  assert (Hp2 : 0 < 2 ^ n2) by (apply Z.pow_pos_nonneg; lia).
  assert (H3 : 1 <= m2 / 2 ^ n2 /\ (n2 = 0 -> m2 / 2 ^ n2 = m2)).
  { split.
    - destruct (Z.eq_dec n2 0) as [E|E].
      + rewrite E. simpl. rewrite Z.div_1_r. lia.
      + assert (En : n2 = Zdigits2 m2 - 53)
          by (unfold n2, fexp64 in *; lia).
        apply Z.div_le_lower_bound; [assumption|].
        apply Z.le_trans with (2 ^ (Zdigits2 m2 - 1)); [|exact H2lo].
        rewrite Z.mul_1_r. apply Z.pow_le_mono_r; lia.
    - intros ->. simpl. apply Z.div_1_r. }
  destruct H3 as [H3 H3x].
  destruct (m2 / 2 ^ n2) as [|p|p] eqn:E3; [lia | | lia].
  destruct (f + n2 <=? 971); [|reflexivity].
  cbn [at_least]. split; [reflexivity|].
  destruct (Z.eq_dec n2 0) as [E|E].
  - destruct (Z.eq_dec f ex) as [Ef|Ef].
    + right. split; [lia|]. rewrite <- (H3x E) in *. specialize (Hm1x Ef). lia.
    + left. lia.
  - left. lia.
Qed.

Lemma SFadd_at_least (mx : positive) (ex : Z) (my : positive) (ey : Z) :
  bounded prec emax mx ex = true ->
  at_least mx ex (SFadd prec emax (S754_finite false mx ex)
                                  (S754_finite false my ey)).
Proof.
  intro Hb. unfold SFadd. cbn [cond_Zopp]. cbv zeta.
  set (ez := Z.min ex ey).
  change (Zpos (fst (shl_align mx ex ez)) + Zpos (fst (shl_align my ey ez)))
    with (Zpos (fst (shl_align mx ex ez) + fst (shl_align my ey ez))).
  cbn [binary_normalize].
  apply binary_round_at_least; [assumption | unfold ez; lia |].
  rewrite Pos2Z.inj_add, shl_align_fst by (unfold ez; lia). lia.
Qed.

Lemma SFleb_refl_finite (m : positive) (e : Z) :
  SFleb (S754_finite false m e) (S754_finite false m e) = true.
Proof.
  unfold SFleb, SFcompare. now rewrite Z.compare_refl, Pos.compare_cont_refl.
Qed.

(** ** Adding a non-negative float *)

(** A float that is no NaN and not below zero. *)
Definition nn (x : float) : Prop := nonneg (Prim2SF x).

(** Adding a non-negative float to a non-negative float never gives a
    smaller one: the sum is rounded, but not below its first term. *)
Lemma add_nn (x d : float) :
  nn x -> nn d -> nn (x + d)%float /\ (x <=? x + d)%float = true.
Proof.
  unfold nn. rewrite leb_spec, add_spec.
  pose proof (Prim2SF_valid x) as Vx.
  destruct (Prim2SF x) as [sx|sx| |sx mx ex];
    destruct (Prim2SF d) as [sd|sd| |sd my ey];
    cbn [nonneg]; try contradiction; intros Hx Hd; subst.
  - destruct sx, sd; split; reflexivity || exact I.
  - split; reflexivity.
  - split; reflexivity.
  - split; reflexivity.
  - split; reflexivity.
  - split; reflexivity.
  - split; [reflexivity | apply SFleb_refl_finite].
  - split; reflexivity.
  - unfold SF64add. cbn [valid_binary] in Vx.
    pose proof (@SFadd_at_least mx ex my ey Vx) as H.
    split; [now apply at_least_nonneg in H | now apply at_least_leb].
Qed.


(** ** [float(n)] and the share of a positive duration *)

Lemma of_uint63_nonneg_finite (k : PrimInt63.int) :
  match Prim2SF (of_uint63 k) with
  | S754_zero s | S754_finite s _ _ => s = false
  | _ => False
  end.
Proof.
  rewrite of_uint63_spec.
  pose proof (Uint63.to_Z_bounded k) as Hk.
  destruct (Uint63.to_Z k) as [|m|m]; [reflexivity | | lia].
  cbn [binary_normalize]. unfold binary_round. rewrite fexp_eq.
  assert (Hd : Zpos (digits2_pos m) <= 63).
  { apply (@Zdigits2_upper (Zpos m) 63); [lia|]. exact (proj2 Hk). }
  pose proof (digits_bounds m) as [_ Hhi].
  set (d := Zpos (digits2_pos m)) in *.
  assert (Hdp : 0 < d) by (unfold d; lia).
  set (f := fexp64 (d + 0)).
  assert (Ef : f = d - 53) by (unfold f, fexp64; lia).
  unfold shl_align. destruct (f - 0) as [|p|p] eqn:E.
  - apply binary_round_aux_small; [lia | lia | cbn [Zdigits2]; fold d; lia].
  - apply binary_round_aux_small; [lia | lia | cbn [Zdigits2]; fold d; lia].
  - apply binary_round_aux_small; [lia | lia |].
    assert (Hup : Zpos (Pos.iter xO m p) < 2 ^ (d + Zpos p)).
    { rewrite iter_xO, Z.pow_add_r by lia.
      apply Z.mul_lt_mono_pos_r; [apply Z.pow_pos_nonneg; lia | exact Hhi]. }
    pose proof (@Zdigits2_upper (Zpos (Pos.iter xO m p)) _ ltac:(lia) Hup).
    lia.
Qed.

Lemma SFdiv_core_nonneg (m1 : positive) (e1 : Z) (m2 : positive) (e2 : Z) :
  0 <= fst (fst (SFdiv_core_binary prec emax (Zpos m1) e1 (Zpos m2) e2)).
Proof.
  unfold SFdiv_core_binary. cbv zeta.
  set (s := _ - _ - _).
  set (m' := match s with Zpos _ => Z.shiftl (Zpos m1) s | Z0 => Zpos m1
             | Zneg _ => 0 end).
  assert (Hm' : 0 <= m').
  { unfold m'. destruct s; [lia | | lia]. apply Z.shiftl_nonneg. lia. }
  pose proof (Z.div_pos m' (Zpos m2) Hm' ltac:(lia)) as Hq.
  unfold Z.div in Hq. destruct (Z.div_eucl m' (Zpos m2)) as [q r].
  exact Hq.
Qed.

(** The share [total_duration / float(n)] of a positive duration is no
    NaN and not below zero. *)
Lemma div_nn (t : float) (k : PrimInt63.int) :
  (0 <? t)%float = true -> nn (t / of_uint63 k)%float.
Proof.
  unfold nn. rewrite ltb_spec, div_spec.
  change (Prim2SF 0) with (S754_zero false).
  pose proof (of_uint63_nonneg_finite k) as Hk.
  destruct (Prim2SF t) as [st|st| |st mt et]; try discriminate;
    destruct (Prim2SF (of_uint63 k)) as [sk|sk| |sk mk ek];
    try contradiction; subst sk; destruct st; try discriminate; intros _;
    try reflexivity; try exact I.
  unfold SF64div, SFdiv. cbn [xorb].
  pose proof (SFdiv_core_nonneg mt et mk ek) as Hq.
  destruct (SFdiv_core_binary prec emax (Zpos mt) et (Zpos mk) ek)
    as [[q e] l].
  cbn [fst] in Hq. now apply binary_round_aux_nonneg.
Qed.

End FloatFacts.

(* ================================================================== *)
(** * The timeline on floats *)
(* ================================================================== *)

Module Timeline.
Import Text Script TrackFacts FloatFacts.

(** Each interval ends no later than the next one. *)
Fixpoint ends_nondecreasing (ivs : list (float * float)) : Prop :=
  match ivs with
  | [] => True
  | a :: r =>
      match r with
      | [] => True
      | b :: _ => (snd a <=? snd b)%float = true
      end /\ ends_nondecreasing r
  end.

(** No interval ends before it starts. *)
Definition forward (ivs : list (float * float)) : Prop :=
  Forall (fun iv => (fst iv <=? snd iv)%float = true) ivs.


Lemma summed_nondecreasing (d : float) (n : nat) :
  nn d -> forall t, nn t -> ends_nondecreasing (summed binary64 d n t).
Proof.
  intro Hd. induction n as [|n IH]; intros t Ht; [exact I|].
  cbn [summed ends_nondecreasing].
  destruct (@add_nn t d Ht Hd) as [Hs _].
  split; [|now apply IH].
  destruct n; cbn [summed snd]; [exact I|].
  exact (proj2 (@add_nn _ d Hs Hd)).
Qed.

Lemma summed_forward (d : float) (n : nat) :
  nn d -> forall t, nn t -> forward (summed binary64 d n t).
Proof.
  intro Hd. induction n as [|n IH]; intros t Ht; [constructor|].
  cbn [summed]. destruct (@add_nn t d Ht Hd) as [Hs Hle].
  constructor; [exact Hle | now apply IH].
Qed.



(** The share of a positive duration among [n] segments. *)
Lemma share_nn (total : float) (n : Z) :
  (0 <? total)%float = true -> nn (div_int binary64 total n).
Proof. intro H. cbn [div_int binary64]. unfold float_of_int. now apply div_nn. Qed.

End Timeline.

(* ================================================================== *)
(** * Properties of the track builds *)
(* ================================================================== *)

Module TrackClaims.
Import Text TextFacts Script SegmenterFacts TrackFacts ExactFacts.

(** Texts used in the examples below. *)
Definition scenario_text : str :=
  of_string "Breaking news today. Markets fell sharply.".

(** A word of 45 characters: two of them never share a segment of 70. *)
Definition long_word : str :=
  of_string "pneumonoultramicroscopicsilicovolcanoconiosis".

Definition long_words (n : nat) : str := join [space] (repeat long_word n).

Definition plain (text : str) : str := text.

(** ** How the boundaries are computed (C3) *)

(** C3, counterexample.  Seven segments over 60 seconds: the seventh cue
    starts at the sum of six additions of [60 / 7], which is not the
    float [6 * (60 / 7)]. *)
Lemma seventh_start_is_not_a_product :
  exists cues c,
    generate_tts_vtt binary64 plain (long_words 7) 60%float = Ok cues
    /\ nth_error cues 6 = Some c
    /\ start_time c = add_times binary64 (60 / 7)%float 6 0%float
    /\ (start_time c =? 6 * (60 / 7))%float = false.
Proof.
  eexists. eexists. split; [vm_compute; reflexivity|].
  split; [reflexivity|]. split; [reflexivity|]. vm_compute. reflexivity.
Qed.

(** C3, as the code has it.  Both loops keep [current_time] and add
    [duration_per_segment] to it once per segment: the [i]-th interval of
    [n] runs from the result of [i] additions (starting from [0.0]) to the
    result of [i + 1], with [duration_per_segment = total_duration / n].
    Only in exact arithmetic is that [i * duration_per_segment]. *)
Theorem boundaries_by_repeated_addition :
  (forall (A : arith) (emphasis : str -> str) (text : str)
          (total_duration : num A) (max_chars : Z),
     intervals_of (generate_tts_vtt A emphasis text total_duration)
     = match split_into_segments text default_max_chars default_max_lines
       with
       | [] => Raise ZeroDivisionError
       | (_ :: _) as segs =>
           let d := div_int A total_duration (len segs) in
           Ok (map (fun i => (add_times A d i (zero A),
                              add_times A d (S i) (zero A)))
                   (seq 0 (List.length segs)))
       end
     /\ intervals_of
          (generate_captions_vtt A text total_duration max_chars)
        = match split_into_segments text max_chars default_max_lines with
          | [] => Raise ZeroDivisionError
          | (_ :: _) as segs =>
              let d := div_int A total_duration (len segs) in
              Ok (map (fun i => (add_times A d i (zero A),
                                 add_times A d (S i) (zero A)))
                      (seq 0 (List.length segs)))
          end)
  /\ (forall (d : Q) (i : nat),
       (add_times exact d i 0 == inject_Z (Z.of_nat i) * d)%Q).
Proof.
  split.
  - intros A emphasis text total max_chars. split.
    + rewrite tts_intervals.
      destruct (split_into_segments text default_max_chars
                  default_max_lines); [reflexivity|].
      cbv zeta. now rewrite summed_add_times.
    + rewrite captions_intervals.
      destruct (split_into_segments text max_chars default_max_lines);
        [reflexivity|].
      cbv zeta. now rewrite summed_add_times.
  - intros d i. rewrite add_times_exact. ring.
Qed.

(** ** Empty text (C4) *)

(** C4, counterexample.  On the empty text the segmenter returns
    normally, with no segment; the build that follows raises
    [ZeroDivisionError], the exception of the duration division. *)
Lemma empty_text_is_segmented_normally :
  split_into_segments [] default_max_chars default_max_lines = []
  /\ generate_tts_vtt binary64 plain [] 10%float = Raise ZeroDivisionError
  /\ generate_captions_vtt binary64 [] 10%float 35
     = Raise ZeroDivisionError.
Proof. repeat split. Qed.

(** C4, as the code has it.  For the empty text [split_into_segments]
    returns the empty list whatever the limits, and each track build
    raises [ZeroDivisionError] at [total_duration / len(segments)],
    whatever the duration. *)
Theorem empty_text_divides_by_zero :
  forall (A : arith) (emphasis : str -> str) (total_duration : num A)
         (max_chars_per_line max_lines max_chars : Z),
    split_into_segments [] max_chars_per_line max_lines = []
    /\ generate_tts_vtt A emphasis [] total_duration
       = Raise ZeroDivisionError
    /\ generate_captions_vtt A [] total_duration max_chars
       = Raise ZeroDivisionError.
Proof. intros. repeat split. Qed.

(** ** Width of the caption lines (C6) *)

Lemma in_firstn {X} (n : nat) (l : list X) (x : X) :
  In x (firstn n l) -> In x l.
Proof.
  intro H. rewrite <- (firstn_skipn n l). apply in_or_app. now left.
Qed.

(** The text lines of a captions cue are the first two lines of a
    wrapped segment. *)
Lemma captions_lines (A : arith) text (total : num A) max_chars cues c :
  generate_captions_vtt A text total max_chars = Ok cues ->
  In c cues ->
  exists segment,
    In segment (split_into_segments text max_chars default_max_lines)
    /\ lines c = firstn 2 (wrap_lines max_chars segment).
Proof.
  unfold generate_captions_vtt. intros H Hc.
  destruct (divide A total _) as [d|e]; [|discriminate].
  injection H as <-. rewrite captions_fold in Hc. cbn [app] in Hc.
  apply (in_map (@lines A)) in Hc. rewrite cues_from_lines in Hc.
  apply in_map_iff in Hc. destruct Hc as (segment & Hl & Hs).
  exists segment. split; [assumption | now symmetry].
Qed.

(** C6, counterexample.  A text of one word of 45 characters: the
    captions cue shows that word on one line, longer than the limit of
    35. *)
Lemma long_word_overflows_its_line :
  generate_captions_vtt binary64 long_word 10%float default_max_chars
  = Ok [mk_cue binary64 0%float 10%float [long_word]]
  /\ len long_word = 45%Z
  /\ (len long_word > default_max_chars)%Z.
Proof. repeat split. Qed.

(** C6, as the code has it.  Every text line of every cue of the captions
    track is at most [max_chars] characters long, or else it is one word
    of the text, longer than [max_chars], alone on its line: words are
    never broken. *)
Theorem caption_lines_bounded
  (A : arith) (text : str) (total_duration : num A) (max_chars : Z)
  (cues : list (cue A)) (c : cue A) (line : str) :
  generate_captions_vtt A text total_duration max_chars = Ok cues ->
  In c cues ->
  In line (lines c) ->
  (len line <= max_chars)%Z
  \/ (In line (split text) /\ (len line > max_chars)%Z).
Proof.
  intros Hb Hc Hl.
  destruct (@captions_lines A text total_duration max_chars cues c Hb Hc)
    as (segment & Hseg & Elines).
  rewrite Elines in Hl. apply in_firstn in Hl.
  pose proof (wrap_lines_ok max_chars segment) as Hok.
  rewrite Forall_forall in Hok. specialize (Hok _ Hl).
  destruct (Z_le_gt_dec (len line) max_chars) as [Hle|Hgt];
    [now left|].
  right. split; [|assumption].
  destruct Hok as [Hle|Hin]; [lia|].
  destruct (split_into_segments_spec text max_chars default_max_lines)
    as [_ <-].
  apply in_concat. exists (split segment).
  split; [now apply in_map | assumption].
Qed.

Lemma caption_lines_bounded_witness :
  (len (of_string "sharply.") <= 35)%Z
  \/ (In (of_string "sharply.") (split scenario_text)
      /\ (len (of_string "sharply.") > 35)%Z).
Proof.
  apply (@caption_lines_bounded binary64 scenario_text 10%float 35%Z
           [mk_cue binary64 0%float 10%float
              [of_string "Breaking news today. Markets fell";
               of_string "sharply."]]
           (mk_cue binary64 0%float 10%float
              [of_string "Breaking news today. Markets fell";
               of_string "sharply."])
           (of_string "sharply.")).
  - vm_compute. reflexivity.
  - left. reflexivity.
  - right. left. reflexivity.
Defined.

End TrackClaims.

(* ================================================================== *)
(** * The quota ledger *)
(* ================================================================== *)

Module LedgerFacts.
Import Tts.
Local Open Scope Z_scope.

(** ** [min] *)

Lemma min_by_in {A} (key : A -> Z) xs :
  forall x, In (min_by key x xs) (x :: xs).
Proof.
  induction xs as [|y r IH]; intro x; simpl; [now left|].
  destruct (IH (if key y <? key x then y else x)) as [H|H].
  - destruct (key y <? key x); rewrite <- H; auto.
  - right. now right.
Qed.

Lemma min_by_le_start {A} (key : A -> Z) xs :
  forall x, key (min_by key x xs) <= key x.
Proof.
  induction xs as [|y r IH]; intro x; simpl; [lia|].
  specialize (IH (if key y <? key x then y else x)).
  destruct (Z.ltb_spec (key y) (key x)); lia.
Qed.

Lemma min_by_least {A} (key : A -> Z) xs :
  forall x y, In y (x :: xs) -> key (min_by key x xs) <= key y.
Proof.
  induction xs as [|z r IH]; intros x y Hy.
  - destruct Hy as [<-|[]]. simpl. lia.
  - cbn [min_by].
    destruct Hy as [<-|[<-|Hy]].
    + pose proof (min_by_le_start key r (if key z <? key x then z else x)).
      destruct (Z.ltb_spec (key z) (key x)); lia.
    + pose proof (min_by_le_start key r (if key z <? key x then z else x)).
      destruct (Z.ltb_spec (key z) (key x)); lia.
    + apply IH. now right.
Qed.

(** ** Reading and writing the ledger *)

Lemma rollover_id now p : project_id (rollover now p) = project_id p.
Proof. unfold rollover. now destruct (month p =? now). Qed.

Lemma rollover_month now p : month (rollover now p) = now.
Proof.
  unfold rollover. destruct (Z.eqb_spec (month p) now); [assumption|].
  reflexivity.
Qed.

Lemma rollover_chars now p :
  chars_used (rollover now p)
  = if month p =? now then chars_used p else 0.
Proof. unfold rollover. now destruct (month p =? now). Qed.

(** A ledger of the current month is read back as it is. *)
Lemma rollover_current now (u : usage) :
  Forall (fun p => month p = now) u -> map (rollover now) u = u.
Proof.
  induction 1 as [|p r Hp _ IH]; simpl; [reflexivity|].
  rewrite IH. unfold rollover. now rewrite Hp, Z.eqb_refl.
Qed.

Lemma rollover_months now (u : usage) :
  Forall (fun p => month p = now) (map (rollover now) u).
Proof.
  apply Forall_forall. intros p Hp. apply in_map_iff in Hp.
  destruct Hp as (q & <- & _). apply rollover_month.
Qed.

Lemma add_usage_months now id chars (u : usage) :
  Forall (fun p => month p = now) u ->
  Forall (fun p => month p = now) (add_usage id chars u).
Proof.
  induction 1 as [|p r Hp Hr IH]; simpl; [constructor|].
  destruct (String.eqb (project_id p) id); constructor; assumption.
Qed.

(** An id that the ledger does not list changes nothing. *)
Lemma add_usage_absent id chars (u : usage) :
  (forall p, In p u -> project_id p <> id) -> add_usage id chars u = u.
Proof.
  induction u as [|p r IH]; intro H; simpl; [reflexivity|].
  destruct (String.eqb_spec (project_id p) id) as [E|_].
  - elim (H p); [now left | assumption].
  - rewrite IH; [reflexivity|]. intros q Hq. apply H. now right.
Qed.

Lemma load_existing now fs u :
  usage_file fs = Some u ->
  load_usage_data now fs
  = (Ok (map (rollover now) u),
     mk_files (config_file fs) (Some (map (rollover now) u))).
Proof. intro H. unfold load_usage_data. now rewrite H. Qed.

(** After a successful read the file holds what was returned. *)
Lemma load_persists now fs u fs' :
  load_usage_data now fs = (Ok u, fs') ->
  fs' = mk_files (config_file fs) (Some u).
Proof.
  unfold load_usage_data.
  destruct (usage_file fs) as [u0|].
  - unfold bind, save_usage_data, ret. cbn. now intros [= <- <-].
  - unfold bind, load_tts_config, save_usage_data, ret, raise.
    destruct (config_file fs) as [cfg|] eqn:E; cbn; [|discriminate].
    rewrite E. now intros [= <- <-].
Qed.

Lemma update_existing now id chars fs u :
  usage_file fs = Some u ->
  update_usage now id chars fs
  = (Ok tt,
     mk_files (config_file fs)
              (Some (add_usage id chars (map (rollover now) u)))).
Proof.
  intro H. unfold update_usage, bind. now rewrite (load_existing now fs H).
Qed.

End LedgerFacts.

Module LedgerClaims.
Import Tts LedgerFacts.
Local Open Scope Z_scope.

(** The configuration and the ledger of the scenarios below: two
    projects under a safety limit of 1000 characters. *)
Definition two_projects : config :=
  mk_config (Some 1000)
    [mk_project_config "project-a" "keys/a.json";
     mk_project_config "project-b" "keys/b.json"].

Definition ledger (now used_a used_b : Z) : files :=
  mk_files (Some two_projects)
           (Some [mk_project "project-a" now used_a;
                  mk_project "project-b" now used_b]).

(** ** The project selector (C7) *)

(** Every outcome of [select_project]. *)
Lemma select_project_spec (cfg : config) (u : usage) :
  match select_project cfg u with
  | Ok (selected, project_cfg) =>
      In selected u
      /\ chars_used selected < get_safety_limit cfg
      /\ (forall p, In p u -> chars_used p < get_safety_limit cfg ->
                    chars_used selected <= chars_used p)
      /\ In project_cfg (projects cfg)
      /\ cfg_project_id project_cfg = project_id selected
  | Raise e =>
      (e = quota_exhausted
       /\ forall p, In p u -> get_safety_limit cfg <= chars_used p)
      \/ (e = StopIteration
          /\ exists selected,
               In selected u
               /\ chars_used selected < get_safety_limit cfg
               /\ forall c, In c (projects cfg) ->
                            cfg_project_id c <> project_id selected)
  end.
Proof.
  unfold select_project.
  set (limit := get_safety_limit cfg).
  set (below := fun p => chars_used p <? limit).
  destruct (filter below u) as [|x xs] eqn:F.
  - left. split; [reflexivity|]. intros p Hp.
    destruct (Z.ltb_spec (chars_used p) limit) as [Hlt|]; [|assumption].
    assert (Hin : In p (filter below u)).
    { apply filter_In. split; [assumption|]. now apply Z.ltb_lt. }
    rewrite F in Hin. destruct Hin.
  - set (selected := min_by chars_used x xs).
    assert (Hsel : In selected u /\ chars_used selected < limit).
    { pose proof (min_by_in chars_used xs x) as Hin.
      rewrite <- F in Hin. apply filter_In in Hin.
      destruct Hin as [Hin Hb]. split; [assumption | now apply Z.ltb_lt]. }
    assert (Hmin : forall p, In p u -> chars_used p < limit ->
                             chars_used selected <= chars_used p).
    { intros p Hp Hlt. apply min_by_least. rewrite <- F.
      apply filter_In. split; [assumption | now apply Z.ltb_lt]. }
    destruct (find _ (projects cfg)) as [pc|] eqn:Ef.
    + apply find_some in Ef. destruct Ef as [Hpc Heq].
      apply String.eqb_eq in Heq. now repeat split.
    + right. split; [reflexivity|]. exists selected.
      repeat split; try apply Hsel.
      intros c Hc Heq.
      pose proof (find_none _ _ Ef c Hc) as Hne. cbv beta in Hne.
      apply String.eqb_neq in Hne. contradiction.
Qed.

(** C7, counterexample.  The ledger lists a project that the
    configuration no longer lists, and it is the least used one: the
    selector neither returns a project nor raises the quota exception,
    it raises [StopIteration] at the lookup of the configuration entry. *)
Lemma unconfigured_project_is_not_selected :
  select_project
    (mk_config (Some 1000) [mk_project_config "project-a" "a.json"])
    [mk_project "project-a" 11 800; mk_project "project-b" 11 100]
  = Raise StopIteration.
Proof. reflexivity. Qed.

(** C7, as the code has it.  When no project of the ledger has
    [chars_used < safety_limit] the selector raises the quota exception,
    and [generate_audio] then stops there: the ledger file holds what
    the read returned, no usage is added.  When some project has
    [chars_used < safety_limit] and the ledger's projects are listed in
    the configuration, the selector returns a project of the ledger
    below the limit, with the least [chars_used] among those below the
    limit, and its configuration entry. *)
Theorem select_project_least_used :
  (forall cfg u,
     (forall p, In p u -> get_safety_limit cfg <= chars_used p) ->
     select_project cfg u = Raise quota_exhausted)
  /\ (forall cfg u p0,
        In p0 u -> chars_used p0 < get_safety_limit cfg ->
        (forall p, In p u ->
           exists c, In c (projects cfg)
                     /\ cfg_project_id c = project_id p) ->
        exists selected project_cfg,
          select_project cfg u = Ok (selected, project_cfg)
          /\ In selected u
          /\ chars_used selected < get_safety_limit cfg
          /\ (forall p, In p u -> chars_used p < get_safety_limit cfg ->
                        chars_used selected <= chars_used p)
          /\ In project_cfg (projects cfg)
          /\ cfg_project_id project_cfg = project_id selected)
  /\ (forall now chars synth fs cfg u,
        config_file fs = Some cfg ->
        fst (load_usage_data now fs) = Ok u ->
        (forall p, In p u -> get_safety_limit cfg <= chars_used p) ->
        generate_audio now chars synth fs
        = (Raise quota_exhausted, snd (load_usage_data now fs))
        /\ usage_file (snd (load_usage_data now fs)) = Some u).
Proof.
  assert (Hnone : forall cfg u,
            (forall p, In p u -> get_safety_limit cfg <= chars_used p) ->
            select_project cfg u = Raise quota_exhausted).
  { intros cfg u Hall. pose proof (select_project_spec cfg u) as H.
    destruct (select_project cfg u) as [[sel pc]|e].
    - destruct H as (Hin & Hlt & _). specialize (Hall _ Hin). lia.
    - destruct H as [[-> _]|[_ (sel & Hin & Hlt & _)]]; [reflexivity|].
      specialize (Hall _ Hin). lia. }
  split; [exact Hnone|]. split.
  - intros cfg u p0 Hp0 Hlt0 Hcfg.
    pose proof (select_project_spec cfg u) as H.
    destruct (select_project cfg u) as [[sel pc]|e].
    + exists sel, pc. split; [reflexivity | exact H].
    + destruct H as [[_ Hall]|[_ (sel & Hin & _ & Hno)]].
      * specialize (Hall _ Hp0). lia.
      * destruct (Hcfg _ Hin) as (c & Hc & Heq). now elim (Hno c Hc).
  - intros now chars synth fs cfg u Hc Hload Hall.
    unfold generate_audio, bind, load_tts_config. rewrite Hc.
    change (ret cfg fs) with (Ok cfg, fs). cbv beta iota.
    destruct (load_usage_data now fs) as [r fs1] eqn:El.
    cbn [fst snd] in *. subst r.
    unfold lift. rewrite (Hnone cfg u Hall).
    split; [reflexivity|].
    now rewrite (load_persists _ _ El).
Qed.

Lemma select_project_least_used_witness :
  generate_audio 11 150 (Ok tt) (ledger 11 1100 1149)
  = (Raise quota_exhausted, ledger 11 1100 1149).
Proof.
  refine (proj1 (proj2 (proj2 select_project_least_used)
                   11 150 (Ok tt) (ledger 11 1100 1149) two_projects
                   [mk_project "project-a" 11 1100;
                    mk_project "project-b" 11 1149]
                   eq_refl eq_refl _)).
  intros p [<-|[<-|[]]]; vm_compute; discriminate.
Defined.

(** ** The scenario of two projects at 800 and 999 (C8) *)

Ltac run_ledger :=
  repeat (progress (cbn;
                    unfold rollover, select_project, get_safety_limit;
                    cbn; rewrite ?Z.eqb_refl)).

(** C8, counterexample.  After the first request of 150 characters the
    ledger stands at 950 and 999.  The second identical request is not
    refused: both projects are still below 1000, the one at 950 is
    selected and ends at 1100. *)
Lemma second_request_is_not_refused :
  generate_audio 11 150 (Ok tt) (ledger 11 800 999)
  = (Ok (mk_receipt "project-a" 150 50), ledger 11 950 999)
  /\ fst (generate_audio 11 150 (Ok tt) (ledger 11 950 999))
     <> Raise quota_exhausted
  /\ generate_audio 11 150 (Ok tt) (ledger 11 950 999)
     = (Ok (mk_receipt "project-a" 150 (-100)), ledger 11 1100 999).
Proof. repeat split. discriminate. Qed.

(** C8, as the code has it.  With a safety limit of 1000 and two
    projects at 800 and 999, a request of 150 characters selects the
    project at 800 and leaves it at 950.  The selector compares
    [chars_used] with the limit and not with the size of the request: a
    second identical request selects the same project, now at 950, and
    leaves it at 1100; a third goes to the project at 999; only the
    fourth, with both projects at or above 1000, raises the quota
    exception, and records nothing. *)
Theorem scenario_two_projects :
  forall now : Z,
    generate_audio now 150 (Ok tt) (ledger now 800 999)
    = (Ok (mk_receipt "project-a" 150 50), ledger now 950 999)
    /\ generate_audio now 150 (Ok tt) (ledger now 950 999)
       = (Ok (mk_receipt "project-a" 150 (-100)), ledger now 1100 999)
    /\ generate_audio now 150 (Ok tt) (ledger now 1100 999)
       = (Ok (mk_receipt "project-b" 150 (-149)), ledger now 1100 1149)
    /\ generate_audio now 150 (Ok tt) (ledger now 1100 1149)
       = (Raise quota_exhausted, ledger now 1100 1149).
Proof.
  intro now. unfold generate_audio, update_usage, load_usage_data, bind.
  repeat split; run_ledger; reflexivity.
Qed.

(** ** Rollover on every read (C9) *)

(** What the read makes of a stored project. *)
Definition rolled_over (now : Z) (p p' : project) : Prop :=
  project_id p' = project_id p
  /\ month p' = now
  /\ chars_used p' = if month p =? now then chars_used p else 0.

(** C9.  Every read of an existing ledger, [load_usage_data], returns
    the stored projects with each project of another month reset to
    [chars_used = 0] and moved to the current month, the others kept,
    and leaves exactly that in the file.  [update_usage] adds its delta
    to this rolled-over ledger, and [generate_audio] selects from it and
    records the usage on it. *)
Theorem rollover_before_ledger_use (now : Z) (fs : files) (u : usage) :
  usage_file fs = Some u ->
  let u' := map (rollover now) u in
  Forall2 (rolled_over now) u u'
  /\ load_usage_data now fs = (Ok u', mk_files (config_file fs) (Some u'))
  /\ (forall id chars,
        update_usage now id chars fs
        = (Ok tt,
           mk_files (config_file fs) (Some (add_usage id chars u'))))
  /\ (forall chars synth cfg,
        config_file fs = Some cfg ->
        match select_project cfg u', synth with
        | Raise e, _ | Ok _, Raise e =>
            generate_audio now chars synth fs
            = (Raise e, mk_files (Some cfg) (Some u'))
        | Ok (selected, _), Ok _ =>
            usage_file (snd (generate_audio now chars synth fs))
            = Some (add_usage (project_id selected) chars u')
        end).
Proof.
  intros Hu u'. split; [|split; [|split]].
  - subst u'. clear Hu. induction u as [|p r IH]; simpl; constructor.
    + unfold rolled_over.
      now rewrite rollover_id, rollover_month, rollover_chars.
    + assumption.
  - now apply load_existing.
  - intros id chars. now apply update_existing.
  - intros chars synth cfg Hc. subst u'.
    set (rolled := map (rollover now) u).
    assert (Hrolled : Forall (fun p => month p = now) rolled)
      by apply rollover_months.
    unfold generate_audio, bind, load_tts_config. rewrite Hc.
    change (ret cfg fs) with (Ok cfg, fs). cbv beta iota.
    rewrite (load_existing now fs Hu). fold rolled. rewrite Hc.
    unfold lift.
    destruct (select_project cfg rolled) as [[selected pc]|e];
      [|reflexivity].
    destruct synth as [[]|e]; [|reflexivity].
    cbn [fst].
    rewrite (@update_existing now (project_id selected) chars
               (mk_files (Some cfg) (Some rolled)) rolled eq_refl).
    rewrite (rollover_current Hrolled). cbn [config_file].
    rewrite (@load_existing now
               (mk_files (Some cfg)
                  (Some (add_usage (project_id selected) chars rolled)))
               _ eq_refl).
    rewrite (rollover_current
               (add_usage_months (project_id selected) chars Hrolled)).
    cbn [config_file].
    destruct (find _ (add_usage (project_id selected) chars rolled));
      [|reflexivity].
    destruct (safety_limit cfg); reflexivity.
Qed.

Lemma rollover_before_ledger_use_witness :
  update_usage 11 "project-a" 150
    (mk_files (Some two_projects)
              (Some [mk_project "project-a" 10 800;
                     mk_project "project-b" 11 999]))
  = (Ok tt, ledger 11 150 999).
Proof.
  exact (proj1 (proj2 (proj2
           (@rollover_before_ledger_use 11
              (mk_files (Some two_projects)
                        (Some [mk_project "project-a" 10 800;
                               mk_project "project-b" 11 999]))
              [mk_project "project-a" 10 800;
               mk_project "project-b" 11 999]
              eq_refl)))
           "project-a"%string 150).
Defined.

(** ** Usage for a project the ledger does not list (C10) *)

(** C10.  When the read of the ledger succeeds and no project of the
    ledger has the given id, [update_usage] returns normally and the
    file holds the ledger as the read returned it: no [chars_used]
    changes beyond the rollover of the read, the delta is dropped. *)
Theorem unknown_project_usage_is_dropped
  (now : Z) (id : string) (chars : Z) (fs : files) (u : usage) :
  fst (load_usage_data now fs) = Ok u ->
  (forall p, In p u -> project_id p <> id) ->
  update_usage now id chars fs = (Ok tt, snd (load_usage_data now fs))
  /\ usage_file (snd (load_usage_data now fs)) = Some u.
Proof.
  intros Hload Habsent. unfold update_usage, bind.
  destruct (load_usage_data now fs) as [r fs'] eqn:El.
  cbn [fst snd] in *. subst r.
  rewrite (load_persists _ _ El).
  unfold save_usage_data. cbn [config_file usage_file].
  now rewrite (add_usage_absent chars u Habsent).
Qed.

Lemma unknown_project_usage_is_dropped_witness :
  update_usage 11 "project-z" 150 (ledger 10 800 999)
  = (Ok tt, ledger 11 0 0)
  /\ usage_file (ledger 11 0 0)
     = Some [mk_project "project-a" 11 0; mk_project "project-b" 11 0].
Proof.
  refine (@unknown_project_usage_is_dropped 11 "project-z" 150
            (ledger 10 800 999)
            [mk_project "project-a" 11 0; mk_project "project-b" 11 0]
            eq_refl _).
  intros p [<-|[<-|[]]]; discriminate.
Defined.

End LedgerClaims.

(* ================================================================== *)
(** * More on the segmenter *)
(* ================================================================== *)

Module SegmenterShape.
Import Text TextFacts Script SegmenterFacts.

(** The two loops of [split_into_segments] run over one list of words. *)
Definition segment_words (limit : Z) (ws : list str) : list str :=
  seg_finish (fold_left (seg_word limit) ws seg_init).

Lemma fold_left_concat_map {X Y S} (f : S -> Y -> S) (g : X -> list Y) l :
  forall a,
    fold_left (fun a x => fold_left f (g x) a) l a
    = fold_left f (List.concat (map g l)) a.
Proof.
  induction l as [|x r IH]; intro a; simpl; [reflexivity|].
  now rewrite fold_left_app, IH.
Qed.

Lemma split_into_segments_by_words text max_chars_per_line max_lines :
  split_into_segments text max_chars_per_line max_lines
  = segment_words (max_chars_per_line * max_lines) (split text).
Proof.
  unfold split_into_segments, segment_words.
  rewrite <- re_split_words. f_equal.
  apply (fold_left_concat_map (seg_word (max_chars_per_line * max_lines))
                              split).
Qed.

(** A blank between two strings separates their words. *)
Lemma split_go_before_gap x q W :
  split_go q = ([], W) ->
  split_go (x ++ q) = (fst (split_go x), snd (split_go x) ++ W).
Proof.
  intro Hq. induction x as [|c x IH]; simpl.
  - now rewrite Hq.
  - rewrite IH. destruct (split_go x) as [w ws]; cbn [fst snd].
    destruct (isspace c); cbn [fst snd]; [now rewrite flush_app|].
    reflexivity.
Qed.

Lemma split_app_space x q :
  split (x ++ space :: q) = split x ++ split q.
Proof.
  assert (Hq : split_go (space :: q) = ([], split q)).
  { cbn [split_go]. rewrite space_isspace. unfold split.
    now destruct (split_go q). }
  set (W := split q) in *.
  transitivity (flush (fst (split_go x)) (snd (split_go x) ++ W)).
  - unfold split. now rewrite (@split_go_before_gap x _ _ Hq).
  - rewrite flush_app. unfold split. now destruct (split_go x).
Qed.

(** [' '.join(l).split()] is the words of the strings of [l], in order. *)
Lemma split_join_concat (l : list str) :
  split (join [space] l) = List.concat (map split l).
Proof.
  induction l as [|x r IH]; [reflexivity|].
  destruct r as [|y r].
  - simpl. now rewrite app_nil_r.
  - rewrite join_cons.
    change ([space] ++ join [space] (y :: r))
      with (space :: join [space] (y :: r)).
    rewrite split_app_space, IH. reflexivity.
Qed.

(** ** The shape of a segment *)

(** A segment is made of words joined by single blanks. *)
Definition joined (s : str) : Prop :=
  exists ws, ws <> [] /\ Forall is_word ws /\ s = join [space] ws.

(** It fits the limit, or it is one word. *)
Definition fits (limit : Z) (s : str) : Prop :=
  (len s <= limit)%Z \/ is_word s.

Definition open_fits (limit : Z) (cur : list str) : Prop :=
  cur = [] \/ (len (join [space] cur) <= limit)%Z \/ exists w, cur = [w].

Record shape_inv (limit : Z) (st : seg_state) : Prop := mk_shape_inv {
  shape_segments :
    Forall (fun s => joined s /\ fits limit s) (segments st);
  shape_words : Forall is_word (current_segment st);
  shape_open : open_fits limit (current_segment st)
}.

Lemma close_current limit cur :
  cur <> [] -> Forall is_word cur -> open_fits limit cur ->
  joined (join [space] cur) /\ fits limit (join [space] cur).
Proof.
  intros Hne Hw Hopen. split.
  - now exists cur.
  - destruct Hopen as [->|[Hlen|(w & ->)]].
    + now elim Hne.
    + now left.
    + right. now inversion Hw.
Qed.

Lemma seg_word_shape limit st word :
  is_word word -> shape_inv limit st ->
  shape_inv limit (seg_word limit st word).
Proof.
  intros Hw [Hsegs Hcur Hopen]. unfold seg_word.
  destruct (len (join [space] (current_segment st ++ [word])) >? limit)%Z
    eqn:Hover.
  - destruct (current_segment st) as [|w cur] eqn:Ecur.
    + split; cbn [segments current_segment].
      * apply Forall_app. split; [assumption|].
        constructor; [|constructor]. split; [|now right].
        exists [word]. repeat split; [discriminate | now constructor].
      * constructor.
      * now left.
    + split; cbn [segments current_segment].
      * apply Forall_app. split; [assumption|].
        constructor; [|constructor].
        apply close_current; [discriminate | assumption | assumption].
      * now constructor.
      * right; right. now exists word.
  - split; cbn [segments current_segment].
    + assumption.
    + apply Forall_app. split; [assumption | now constructor].
    + right; left. lia.
Qed.

Lemma seg_words_shape limit ws :
  Forall is_word ws ->
  forall st, shape_inv limit st ->
             shape_inv limit (fold_left (seg_word limit) ws st).
Proof.
  induction 1 as [|w ws Hw _ IH]; intros st Hst; simpl; [assumption|].
  apply IH. now apply seg_word_shape.
Qed.

Lemma segments_shape text max_chars_per_line max_lines :
  Forall (fun s => joined s /\ fits (max_chars_per_line * max_lines) s)
         (split_into_segments text max_chars_per_line max_lines).
Proof.
  rewrite split_into_segments_by_words. unfold segment_words.
  set (limit := (max_chars_per_line * max_lines)%Z).
  assert (Hinit : shape_inv limit seg_init)
    by (split; [constructor | constructor | now left]).
  destruct (@seg_words_shape limit _ (split_words text) _ Hinit)
    as [Hsegs Hcur Hopen].
  unfold seg_finish.
  destruct (current_segment _) as [|w cur] eqn:Ecur; [assumption|].
  apply Forall_app. split; [assumption|].
  constructor; [|constructor].
  apply close_current; [discriminate | assumption | assumption].
Qed.

(** X1.  Every segment that [split_into_segments] returns is at most
    [max_chars_per_line * max_lines] characters long, or else it is a
    single word of the text that is longer than that on its own. *)
Theorem segment_within_limit_or_one_word
  (text : str) (max_chars_per_line max_lines : Z) (segment : str) :
  In segment (split_into_segments text max_chars_per_line max_lines) ->
  (len segment <= max_chars_per_line * max_lines)%Z
  \/ (In segment (split text)
      /\ (len segment > max_chars_per_line * max_lines)%Z).
Proof.
  intro Hin.
  pose proof (segments_shape text max_chars_per_line max_lines) as Hs.
  rewrite Forall_forall in Hs. destruct (Hs _ Hin) as [_ Hfit].
  destruct (Z_le_gt_dec (len segment) (max_chars_per_line * max_lines))
    as [Hle|Hgt]; [now left|].
  right. split; [|assumption].
  destruct Hfit as [Hle|Hword]; [lia|].
  destruct (split_into_segments_spec text max_chars_per_line max_lines)
    as [_ <-].
  apply in_concat. exists (split segment).
  split; [now apply in_map|]. rewrite (split_word Hword). now left.
Qed.

Lemma segment_within_limit_or_one_word_witness :
  (len (of_string "bbb. cc") <= 4 * 2)%Z
  \/ (In (of_string "bbb. cc")
         (split (of_string "aaaa bbb. cc dddddddddd e"))
      /\ (len (of_string "bbb. cc") > 4 * 2)%Z).
Proof.
  apply (@segment_within_limit_or_one_word
           (of_string "aaaa bbb. cc dddddddddd e") 4 2
           (of_string "bbb. cc")).
  vm_compute. right. left. reflexivity.
Defined.

(** X2.  Every segment is whitespace-normalised: it is its own words
    joined by single blanks, so it neither starts nor ends with
    whitespace and holds no newline or double blank. *)
Theorem segment_is_its_words_joined
  (text : str) (max_chars_per_line max_lines : Z) (segment : str) :
  In segment (split_into_segments text max_chars_per_line max_lines) ->
  join [space] (split segment) = segment.
Proof.
  intro Hin.
  pose proof (segments_shape text max_chars_per_line max_lines) as Hs.
  rewrite Forall_forall in Hs.
  destruct (Hs _ Hin) as [(ws & _ & Hws & ->) _].
  now rewrite split_join.
Qed.

Lemma segment_is_its_words_joined_witness :
  join [space] (split (of_string "bbb. cc")) = of_string "bbb. cc".
Proof.
  apply (@segment_is_its_words_joined
           (of_string "aaaa  bbb.   cc dddddddddd e") 4 2
           (of_string "bbb. cc")).
  vm_compute. right. left. reflexivity.
Defined.

(** X3.  The segments depend on the words of the text only: two texts
    with the same words ([text.split()]) get the same segments, so
    sentence ends, line breaks and repeated blanks have no effect. *)
Theorem segments_depend_on_words_only
  (text1 text2 : str) (max_chars_per_line max_lines : Z) :
  split text1 = split text2 ->
  split_into_segments text1 max_chars_per_line max_lines
  = split_into_segments text2 max_chars_per_line max_lines.
Proof.
  intro H. now rewrite !split_into_segments_by_words, H.
Qed.

Lemma segments_depend_on_words_only_witness :
  split_into_segments (of_string "One two. Three four.") 35 2
  = split_into_segments
      (of_string "One two.  Three" ++ [10%N; 10%N] ++ of_string "four.")
      35 2.
Proof.
  apply (@segments_depend_on_words_only
           (of_string "One two. Three four.")
           (of_string "One two.  Three" ++ [10%N; 10%N]
            ++ of_string "four.")
           35 2).
  vm_compute. reflexivity.
Defined.

(** X4.  Segmenting is idempotent: the segments joined by blanks are
    segmented, under the same limits, into the same segments. *)
Theorem segments_of_joined_segments :
  forall (text : str) (max_chars_per_line max_lines : Z),
    split_into_segments
      (join [space] (split_into_segments text max_chars_per_line max_lines))
      max_chars_per_line max_lines
    = split_into_segments text max_chars_per_line max_lines.
Proof.
  intros text mc ml.
  rewrite (split_into_segments_by_words
             (join [space] (split_into_segments text mc ml))).
  rewrite split_join_concat.
  destruct (split_into_segments_spec text mc ml) as [_ ->].
  symmetry. apply split_into_segments_by_words.
Qed.

End SegmenterShape.

(* ================================================================== *)
(** * More on the two tracks *)
(* ================================================================== *)

Module TrackShape.
Import Text TextFacts Script SegmenterFacts TrackFacts.

(** X5.  With the default width the two tracks share one timeline: the
    TTS build and the captions build of a text give the same intervals,
    cue for cue (or both raise), and the emphasis markup has no part in
    them. *)
Theorem tracks_share_timeline :
  forall (A : arith) (emphasis : str -> str) (text : str)
         (total_duration : num A),
    intervals_of (generate_tts_vtt A emphasis text total_duration)
    = intervals_of
        (generate_captions_vtt A text total_duration default_max_chars).
Proof.
  intros. now rewrite tts_intervals, captions_intervals.
Qed.

Lemma nth_error_combine_seq {X} (l : list X) :
  forall start i,
    nth_error (combine (seq start (List.length l)) l) i
    = option_map (fun x => ((start + i)%nat, x)) (nth_error l i).
Proof.
  induction l as [|x r IH]; intros start i; simpl.
  - now destruct i.
  - destruct i as [|i]; simpl.
    + now rewrite Nat.add_0_r.
    + rewrite IH. now rewrite Nat.add_succ_r.
Qed.

Lemma tts_cues (A : arith) emphasis text (total : num A) cues :
  generate_tts_vtt A emphasis text total = Ok cues ->
  map (@lines A) cues
  = map (tts_text emphasis)
        (enumerate (split_into_segments text default_max_chars
                                        default_max_lines)).
Proof.
  unfold generate_tts_vtt.
  destruct (divide A total _) as [d|e]; [|discriminate].
  intros [= <-]. rewrite tts_fold. cbn [app]. apply cues_from_lines.
Qed.

(** X6.  The TTS track has one cue per segment, in order, with one text
    line each: the segment after the emphasis step, and only the first
    cue is wrapped in the slow-rate markup. *)
Theorem tts_cue_carries_its_segment
  (A : arith) (emphasis : str -> str) (text : str) (total_duration : num A)
  (cues : list (cue A)) (i : nat) (c : cue A) :
  generate_tts_vtt A emphasis text total_duration = Ok cues ->
  nth_error cues i = Some c ->
  List.length cues
  = List.length (split_into_segments text default_max_chars
                                     default_max_lines)
  /\ exists segment,
       nth_error (split_into_segments text default_max_chars
                                      default_max_lines) i = Some segment
       /\ lines c
          = [emphasis (if Nat.eqb i 0 then rate_slow segment else segment)].
Proof.
  intros Hb Hc. pose proof (tts_cues _ _ _ Hb) as Hl.
  split.
  - apply (f_equal (@List.length _)) in Hl.
    now rewrite !length_map, enumerate_length in Hl.
  - apply (f_equal (fun l => nth_error l i)) in Hl.
    rewrite !nth_error_map, Hc in Hl. unfold enumerate in Hl.
    rewrite nth_error_combine_seq in Hl.
    destruct (nth_error (split_into_segments _ _ _) i) as [segment|];
      [|discriminate].
    exists segment. split; [reflexivity|].
    cbn in Hl. now injection Hl.
Qed.

Lemma tts_cue_carries_its_segment_witness :
  List.length
    [mk_cue binary64 0%float 10%float
       [of_string "<rate slow>Breaking news today. Markets fell sharply.</rate>"]]
  = List.length (split_into_segments TrackClaims.scenario_text
                   default_max_chars default_max_lines)
  /\ exists segment,
       nth_error (split_into_segments TrackClaims.scenario_text
                    default_max_chars default_max_lines) 0 = Some segment
       /\ [of_string "<rate slow>Breaking news today. Markets fell sharply.</rate>"]
          = [TrackClaims.plain (rate_slow segment)].
Proof.
  apply (@tts_cue_carries_its_segment binary64 TrackClaims.plain
           TrackClaims.scenario_text 10%float
           [mk_cue binary64 0%float 10%float
              [of_string "<rate slow>Breaking news today. Markets fell sharply.</rate>"]]
           0
           (mk_cue binary64 0%float 10%float
              [of_string "<rate slow>Breaking news today. Markets fell sharply.</rate>"])).
  - vm_compute. reflexivity.
  - reflexivity.
Defined.

(** ** The words of a wrapped segment *)

Lemma wrap_word_words max_chars st word :
  is_word word -> Forall is_word (snd st) ->
  Forall is_word (snd (wrap_word max_chars st word))
  /\ List.concat (map split (fst (wrap_word max_chars st word)))
     ++ snd (wrap_word max_chars st word)
     = (List.concat (map split (fst st)) ++ snd st) ++ [word].
Proof.
  intros Hw Hcur. destruct st as [lns cur]. cbn [fst snd] in *.
  unfold wrap_word.
  destruct (len (join [space] (cur ++ [word])) >? max_chars)%Z.
  - destruct cur as [|w cur]; cbn [fst snd].
    + split; [constructor|].
      now rewrite concat_split_snoc, split_word, !app_nil_r.
    + split; [now constructor|].
      now rewrite concat_split_snoc, split_join.
  - cbn [fst snd]. split.
    + apply Forall_app. split; [assumption | now constructor].
    + now rewrite app_assoc.
Qed.

Lemma wrap_words_words max_chars ws :
  Forall is_word ws ->
  forall st,
    Forall is_word (snd st) ->
    Forall is_word (snd (fold_left (wrap_word max_chars) ws st))
    /\ List.concat (map split (fst (fold_left (wrap_word max_chars) ws st)))
       ++ snd (fold_left (wrap_word max_chars) ws st)
       = (List.concat (map split (fst st)) ++ snd st) ++ ws.
Proof.
  induction 1 as [|w ws Hw _ IH]; intros st Hst; simpl.
  - now rewrite app_nil_r.
  - destruct (wrap_word_words max_chars st Hw Hst) as [Hcur Heq].
    destruct (IH _ Hcur) as [Hcur' Heq'].
    split; [assumption|]. now rewrite Heq', Heq, <- app_assoc.
Qed.

(** Wrapping keeps the words of the segment. *)
Lemma wrap_lines_words max_chars segment :
  List.concat (map split (wrap_lines max_chars segment)) = split segment.
Proof.
  unfold wrap_lines.
  destruct (@wrap_words_words max_chars (split segment)
              (split_words segment) ([], [])) as [Hcur Heq];
    [constructor|].
  destruct (fold_left _ _ _) as [lns cur]. cbn [fst snd app] in *.
  destruct cur as [|w cur].
  - now rewrite app_nil_r in Heq.
  - now rewrite concat_split_snoc, split_join.
Qed.

(** X7.  Each captions cue shows one or two lines, and what it shows is
    the beginning of its segment: the words of its lines, in order, are
    the leading words of the segment; the words of a third or later
    wrapped line are left out of the track. *)
Theorem caption_cue_shows_leading_words
  (A : arith) (text : str) (total_duration : num A) (max_chars : Z)
  (cues : list (cue A)) (c : cue A) :
  generate_captions_vtt A text total_duration max_chars = Ok cues ->
  In c cues ->
  (1 <= List.length (lines c) <= 2)%nat
  /\ exists segment dropped,
       In segment (split_into_segments text max_chars default_max_lines)
       /\ split segment
          = List.concat (map split (lines c)) ++ dropped.
Proof.
  intros Hb Hc.
  destruct (@TrackClaims.captions_lines A text total_duration max_chars
              cues c Hb Hc) as (segment & Hseg & Elines).
  pose proof (wrap_lines_words max_chars segment) as Hw.
  destruct (split_into_segments_spec text max_chars default_max_lines)
    as [Hne _].
  rewrite Forall_forall in Hne. specialize (Hne _ Hseg).
  rewrite Elines. split.
  - rewrite length_firstn.
    destruct (wrap_lines max_chars segment) as [|l1 [|l2 r]];
      [now elim Hne | simpl; lia | simpl; lia].
  - exists segment,
      (List.concat (map split (skipn 2 (wrap_lines max_chars segment)))).
    split; [assumption|].
    rewrite <- concat_app, <- map_app, firstn_skipn. now symmetry.
Qed.

Lemma caption_cue_shows_leading_words_witness :
  (1 <= 2 <= 2)%nat
  /\ exists segment dropped,
       In segment (split_into_segments
                     (of_string "aaaaaa bbbbbb ccccc") 10 default_max_lines)
       /\ split segment
          = List.concat (map split [of_string "aaaaaa"; of_string "bbbbbb"])
            ++ dropped.
Proof.
  apply (@caption_cue_shows_leading_words binary64
           (of_string "aaaaaa bbbbbb ccccc") 6%float 10
           [mk_cue binary64 0%float 6%float
              [of_string "aaaaaa"; of_string "bbbbbb"]]
           (mk_cue binary64 0%float 6%float
              [of_string "aaaaaa"; of_string "bbbbbb"])).
  - vm_compute. reflexivity.
  - left. reflexivity.
Defined.

End TrackShape.

(* ================================================================== *)
(** * script_generator.py: the manifest *)
(* ================================================================== *)

Module Manifest.
Import Text Script.

(** The two float constants of [build_manifest]: [current_time = 5.0] and
    the [+ 2] of a label's [outPoint]. *)
Record consts (A : arith) := mk_consts {
  lead_in : num A;
  label_span : num A
}.

Definition binary64_consts : consts binary64 :=
  mk_consts binary64 5%float 2%float.

(** The two fields of a row of [articles_data] that [build_manifest]
    reads. *)
Record article := mk_article {
  article_uuid : string;
  source_name : string
}.

(** One entry of [manifest['articles']]; [graphics] is always empty. *)
Record article_entry (A : arith) := mk_article_entry {
  entry_id : string;
  entry_source : string;
  startTime : num A;
  duration : num A;
  label_text : string;
  label_inPoint : num A;
  label_outPoint : num A;
  content_image : string;
  content_inPoint : num A;
  content_outPoint : num A
}.

Section Articles.
Variable A : arith.
Variable K : consts A.

(** The body of [for article in articles_data]; the state is
    [current_time] and [manifest['articles']]. *)
Definition article_step (article_duration : num A)
  (st : num A * list (article_entry A)) (a : article)
  : num A * list (article_entry A) :=
  let '(current_time, entries) := st in
  (add A current_time article_duration,
   entries ++
   [mk_article_entry A
      (article_uuid a) (source_name a)
      current_time article_duration
      (source_name a) current_time (add A current_time (label_span K))
      (article_uuid a ++ "_700x520.png")%string
      current_time (add A current_time article_duration)]).

(** [max(len(articles_data), 1)] keeps the divisor away from zero. *)
Definition article_duration (articles_data : list article)
  (total_duration : num A) : num A :=
  div_int A total_duration (Z.max (len articles_data) 1).

(** The [articles] of [build_manifest]. *)
Definition build_manifest_articles
  (articles_data : list article) (total_duration : num A)
  : list (article_entry A) :=
  snd (fold_left (article_step (article_duration articles_data
                                                 total_duration))
                 articles_data (lead_in K, [])).

(** The time an entry is on screen: from [startTime] to the [outPoint] of
    its content. *)
Definition on_screen (e : article_entry A) : num A * num A :=
  (startTime e, content_outPoint e).

End Articles.

(** ** The headline *)

Definition full_stop : char := 0x2E%N.

(** [s.split('.')[0]]: what stands before the first full stop. *)
Fixpoint first_sentence (s : str) : str :=
  match s with
  | [] => []
  | c :: r => if (c =? full_stop)%N then [] else c :: first_sentence r
  end.

(** The keys of [summary_data] that [build_manifest] reads; [None] for a
    key that is missing. *)
Record summary_data := mk_summary_data {
  headline : option str;
  summary_text : option str
}.

(** [summary_data.get('headline', summary_data['summary_text'].split('.')[0])]:
    the default is an argument of [get], so it is computed first. *)
Definition headline_text (sd : summary_data) : result str :=
  match summary_text sd with
  | None => Raise (KeyError "summary_text")
  | Some text =>
      let default := first_sentence text in
      Ok (match headline sd with
          | Some h => h
          | None => default
          end)
  end.

End Manifest.

Module ManifestFacts.
Import Text Script TrackFacts FloatFacts Timeline Manifest.

Section Generic.
Variable A : arith.
Variable K : consts A.

(** The entries the loop appends from [current_time = t]. *)
Fixpoint entries_from (d t : num A) (articles : list article)
  : list (article_entry A) :=
  match articles with
  | [] => []
  | a :: r =>
      mk_article_entry A
        (article_uuid a) (source_name a) t d
        (source_name a) t (add A t (label_span K))
        (article_uuid a ++ "_700x520.png")%string
        t (add A t d)
      :: entries_from d (add A t d) r
  end.

Lemma article_fold d articles :
  forall t entries,
    snd (fold_left (article_step K d) articles (t, entries))
    = entries ++ entries_from d t articles.
Proof.
  induction articles as [|a r IH]; intros t entries; simpl.
  - now rewrite app_nil_r.
  - rewrite IH, <- app_assoc. reflexivity.
Qed.

Lemma entries_on_screen d articles :
  forall t,
    map (@on_screen A) (entries_from d t articles)
    = summed A d (List.length articles) t.
Proof.
  induction articles as [|a r IH]; intro t; simpl; [reflexivity|].
  now rewrite IH.
Qed.

Lemma entries_ids d articles :
  forall t,
    map (fun e => (entry_id e, entry_source e)) (entries_from d t articles)
    = map (fun a => (article_uuid a, source_name a)) articles.
Proof.
  induction articles as [|a r IH]; intro t; simpl; [reflexivity|].
  now rewrite IH.
Qed.

Lemma entries_fields d articles :
  forall t,
    Forall (fun e =>
              duration e = d
              /\ label_inPoint e = startTime e
              /\ content_inPoint e = startTime e
              /\ label_outPoint e = add A (startTime e) (label_span K)
              /\ content_outPoint e = add A (startTime e) d)
           (entries_from d t articles).
Proof.
  induction articles as [|a r IH]; intro t; simpl; constructor.
  - cbn. repeat split.
  - apply IH.
Qed.

End Generic.

(** X8.  [build_manifest] lays out one entry per article, in the order of
    the input and with its id and source; the entries follow one another
    without a gap, the first starting at the lead-in of 5 seconds; each
    lasts [total_duration / max(n, 1)], its label runs for 2 seconds from
    its start, and its content from its start to the start of the next.
    With no article the list is empty and nothing is divided by zero. *)
Theorem manifest_articles_laid_out :
  forall (A : arith) (K : consts A) (articles_data : list article)
         (total_duration : num A),
    let entries := build_manifest_articles K articles_data total_duration in
    let d := div_int A total_duration (Z.max (len articles_data) 1) in
    map (fun e => (entry_id e, entry_source e)) entries
    = map (fun a => (article_uuid a, source_name a)) articles_data
    /\ chained A (lead_in K) (map (@on_screen A) entries)
    /\ Forall (fun e =>
                 duration e = d
                 /\ label_inPoint e = startTime e
                 /\ content_inPoint e = startTime e
                 /\ label_outPoint e = add A (startTime e) (label_span K)
                 /\ content_outPoint e = add A (startTime e) d)
              entries.
Proof.
  intros A K articles total. cbv zeta.
  unfold build_manifest_articles, article_duration.
  rewrite article_fold. cbn [app].
  split; [apply entries_ids|]. split; [|apply entries_fields].
  rewrite entries_on_screen. apply summed_chained.
Qed.

(** X9.  On binary64 floats and for [total_duration > 0], the article
    entries of the manifest never run backwards: the content of an entry
    ends no earlier than the entry starts, and no entry ends before the
    one before it. *)
Theorem manifest_articles_run_forward
  (articles_data : list article) (total_duration : float) :
  (0 <? total_duration)%float = true ->
  forward (map (@on_screen binary64)
               (build_manifest_articles binary64_consts articles_data
                                        total_duration))
  /\ ends_nondecreasing
       (map (@on_screen binary64)
            (build_manifest_articles binary64_consts articles_data
                                     total_duration)).
Proof.
  intro Ht. unfold build_manifest_articles, article_duration.
  rewrite article_fold. cbn [app]. rewrite entries_on_screen.
  assert (H5 : nn (lead_in binary64_consts)) by (vm_compute; reflexivity).
  split.
  - apply summed_forward; [now apply share_nn | exact H5].
  - apply summed_nondecreasing; [now apply share_nn | exact H5].
Qed.

Lemma manifest_articles_run_forward_witness :
  forward (map (@on_screen binary64)
               (build_manifest_articles binary64_consts
                  [mk_article "a1" "Reuters"; mk_article "a2" "AP"]
                  10%float))
  /\ ends_nondecreasing
       (map (@on_screen binary64)
            (build_manifest_articles binary64_consts
               [mk_article "a1" "Reuters"; mk_article "a2" "AP"]
               10%float)).
Proof.
  apply (@manifest_articles_run_forward
           [mk_article "a1" "Reuters"; mk_article "a2" "AP"] 10%float).
  reflexivity.
Defined.

(** ** The headline *)

Lemma first_sentence_prefix (s : str) :
  Forall (fun c => c <> full_stop) (first_sentence s)
  /\ exists rest,
       s = first_sentence s ++ rest
       /\ (rest = [] \/ exists r, rest = full_stop :: r).
Proof.
  induction s as [|c r [IHd (rest & IHe & IHr)]]; simpl.
  - split; [constructor|]. exists []. split; [reflexivity | now left].
  - destruct (N.eqb_spec c full_stop) as [->|Hc].
    + split; [constructor|]. exists (full_stop :: r).
      split; [reflexivity|]. right. now exists r.
    + split; [now constructor|]. exists rest.
      split; [simpl; now f_equal | assumption].
Qed.

(** X10.  The headline of the manifest is the given headline when there
    is one, and otherwise the summary text up to its first full stop: a
    prefix of the text without a full stop, followed in the text by a
    full stop or by nothing.  The summary text is read in both cases:
    without it the lookup raises [KeyError], also when a headline is
    given. *)
Theorem headline_is_given_or_first_sentence :
  forall sd : summary_data,
    match headline_text sd with
    | Raise e => e = KeyError "summary_text" /\ summary_text sd = None
    | Ok h =>
        exists text,
          summary_text sd = Some text
          /\ (headline sd = Some h
              \/ (headline sd = None
                  /\ Forall (fun c => c <> full_stop) h
                  /\ exists rest,
                       text = h ++ rest
                       /\ (rest = [] \/ exists r, rest = full_stop :: r)))
    end.
Proof.
  intros [h t]. unfold headline_text. cbn [summary_text headline].
  destruct t as [text|]; [|now split].
  exists text. split; [reflexivity|].
  destruct h as [h|]; [now left|].
  right. split; [reflexivity|]. apply first_sentence_prefix.
Qed.

End ManifestFacts.

(* ================================================================== *)
(** * More on the quota ledger *)
(* ================================================================== *)

Module LedgerMore.
Import Tts LedgerFacts.
Local Open Scope Z_scope.

(** The characters the ledger has on record, over all projects. *)
Definition total_used (u : usage) : Z :=
  fold_right (fun p acc => chars_used p + acc) 0 u.

(** A project after [chars_used += chars]. *)
Definition charged (chars : Z) (p : project) : project :=
  mk_project (project_id p) (month p) (chars_used p + chars).

Definition has_id (id : string) (p : project) : bool :=
  String.eqb (project_id p) id.

(** Every ledger that a read returns is of the current month. *)
Lemma load_months now fs u fs' :
  load_usage_data now fs = (Ok u, fs') ->
  Forall (fun p => month p = now) u.
Proof.
  unfold load_usage_data.
  destruct (usage_file fs) as [u0|].
  - unfold bind, save_usage_data, ret. cbn. intros [= <- _].
    apply rollover_months.
  - unfold bind, load_tts_config, save_usage_data, ret, raise.
    destruct (config_file fs) as [cfg|]; cbn; [|discriminate].
    intros [= <- _]. apply Forall_forall. intros p Hp.
    apply in_map_iff in Hp. now destruct Hp as (c & <- & _).
Qed.

Lemma add_usage_ids id chars (u : usage) :
  map project_id (add_usage id chars u) = map project_id u.
Proof.
  induction u as [|p r IH]; simpl; [reflexivity|].
  destruct (String.eqb (project_id p) id); simpl; [reflexivity|].
  now rewrite IH.
Qed.

Lemma add_usage_total id chars (u : usage) :
  In id (map project_id u) ->
  total_used (add_usage id chars u) = total_used u + chars.
Proof.
  induction u as [|p r IH]; simpl; [intros []|].
  intros Hin. destruct (String.eqb_spec (project_id p) id) as [E|N].
  - simpl. lia.
  - destruct Hin as [E|Hin]; [contradiction|].
    simpl. rewrite (IH Hin). lia.
Qed.

Lemma add_usage_twice id c1 c2 (u : usage) :
  add_usage id c2 (add_usage id c1 u) = add_usage id (c1 + c2) u.
Proof.
  induction u as [|p r IH]; simpl; [reflexivity|].
  destruct (String.eqb (project_id p) id) eqn:E; simpl; rewrite E.
  - now rewrite Z.add_assoc.
  - now rewrite IH.
Qed.

(** The project that [generate_audio] reads back after the update. *)
Lemma find_add_usage id chars (u : usage) :
  find (has_id id) (add_usage id chars u)
  = option_map (charged chars) (find (has_id id) u).
Proof.
  unfold has_id. induction u as [|p r IH]; simpl; [reflexivity|].
  destruct (String.eqb (project_id p) id) eqn:E; simpl; rewrite E.
  - reflexivity.
  - exact IH.
Qed.

Lemma find_in_ledger (u : usage) p :
  In p u -> exists q, find (has_id (project_id p)) u = Some q.
Proof.
  unfold has_id. induction u as [|x r IH]; simpl; [intros []|].
  intros [->|Hin].
  - rewrite String.eqb_refl. now exists p.
  - destruct (String.eqb (project_id x) (project_id p)); [now exists x|].
    now apply IH.
Qed.

Lemma find_unique (u : usage) p :
  NoDup (map project_id u) -> In p u ->
  find (has_id (project_id p)) u = Some p.
Proof.
  unfold has_id. induction u as [|x r IH]; simpl; [intros _ []|].
  intros Hnd [->|Hin].
  - now rewrite String.eqb_refl.
  - inversion Hnd as [|? ? Hx Hr]; subst.
    destruct (String.eqb_spec (project_id x) (project_id p)) as [E|_].
    + elim Hx. rewrite E. now apply in_map.
    + now apply IH.
Qed.

(** [generate_audio] once the selection and the synthesis have
    succeeded: the usage is recorded, then the project is read back and
    the limit looked up. *)
Lemma generate_audio_charged now chars fs cfg u fs1 sel pc :
  config_file fs = Some cfg ->
  load_usage_data now fs = (Ok u, fs1) ->
  select_project cfg u = Ok (sel, pc) ->
  generate_audio now chars (Ok tt) fs
  = (match find (has_id (project_id sel))
                (add_usage (project_id sel) chars u) with
     | Some p =>
         match safety_limit cfg with
         | Some limit =>
             Ok (mk_receipt (project_id sel) chars (limit - chars_used p))
         | None => Raise (KeyError "safety_limit")
         end
     | None => Raise StopIteration
     end,
     mk_files (Some cfg) (Some (add_usage (project_id sel) chars u))).
Proof.
  intros Hc Hload Hsel.
  pose proof (load_months _ _ Hload) as Hm.
  pose proof (load_persists _ _ Hload) as ->. rewrite Hc in Hload.
  unfold generate_audio, bind, load_tts_config. rewrite Hc.
  change (ret cfg fs) with (Ok cfg, fs). cbv beta iota.
  rewrite Hload. unfold lift. rewrite Hsel. cbn [fst].
  rewrite (@update_existing now (project_id sel) chars
             (mk_files (Some cfg) (Some u)) u eq_refl).
  rewrite (rollover_current Hm). cbn [config_file].
  rewrite (@load_existing now
             (mk_files (Some cfg)
                       (Some (add_usage (project_id sel) chars u)))
             _ eq_refl).
  rewrite (rollover_current
             (add_usage_months (project_id sel) chars Hm)).
  cbn [config_file]. fold (has_id (project_id sel)).
  destruct (find _ (add_usage (project_id sel) chars u)); [|reflexivity].
  destruct (safety_limit cfg); reflexivity.
Qed.

(** ** Reading *)

(** X11.  A second read of the ledger in the same month returns the same
    ledger and leaves the file as the first read left it: the rollover
    is applied once. *)
Theorem second_read_changes_nothing
  (now : Z) (fs fs1 : files) (u : usage) :
  load_usage_data now fs = (Ok u, fs1) ->
  load_usage_data now fs1 = (Ok u, fs1).
Proof.
  intro Hload. pose proof (load_months _ _ Hload) as Hm.
  rewrite (load_persists _ _ Hload).
  rewrite (@load_existing now (mk_files (config_file fs) (Some u)) u
             eq_refl).
  now rewrite (rollover_current Hm).
Qed.

Lemma second_read_changes_nothing_witness :
  load_usage_data 11 (LedgerClaims.ledger 11 0 999)
  = (Ok [mk_project "project-a" 11 0; mk_project "project-b" 11 999],
     LedgerClaims.ledger 11 0 999).
Proof.
  apply (@second_read_changes_nothing 11
           (mk_files (Some LedgerClaims.two_projects)
                     (Some [mk_project "project-a" 10 800;
                            mk_project "project-b" 11 999]))).
  reflexivity.
Defined.

(** X12.  Without the configuration file nothing is read or written:
    [generate_audio] raises [FileNotFoundError] before it reads the
    ledger, and a read or an update of a ledger that does not exist yet
    raises it too; the files stay as they were. *)
Theorem missing_config_is_reported
  (now : Z) (chars : Z) (synth : result unit) (id : string) (fs : files) :
  config_file fs = None ->
  generate_audio now chars synth fs = (Raise FileNotFoundError, fs)
  /\ (usage_file fs = None ->
      load_usage_data now fs = (Raise FileNotFoundError, fs)
      /\ update_usage now id chars fs = (Raise FileNotFoundError, fs)).
Proof.
  intro Hc. split.
  - unfold generate_audio, bind, load_tts_config. now rewrite Hc.
  - intro Hu.
    assert (Hl : load_usage_data now fs = (Raise FileNotFoundError, fs)).
    { unfold load_usage_data, bind, load_tts_config. now rewrite Hu, Hc. }
    split; [exact Hl|]. unfold update_usage, bind. now rewrite Hl.
Qed.

Lemma missing_config_is_reported_witness :
  generate_audio 11 150 (Ok tt) (mk_files None None)
  = (Raise FileNotFoundError, mk_files None None)
  /\ (usage_file (mk_files None None) = None ->
      load_usage_data 11 (mk_files None None)
      = (Raise FileNotFoundError, mk_files None None)
      /\ update_usage 11 "project-a" 150 (mk_files None None)
         = (Raise FileNotFoundError, mk_files None None)).
Proof.
  exact (@missing_config_is_reported 11 150 (Ok tt) "project-a"
           (mk_files None None) eq_refl).
Defined.

(** ** Recording usage *)

(** X13.  [update_usage] for a project of the ledger adds exactly [chars]
    to the characters on record: after the rollover of the read, the sum
    of [chars_used] over the ledger grows by [chars], and the projects,
    their order and their ids stay the same. *)
Theorem update_adds_exactly_chars
  (now : Z) (id : string) (chars : Z) (fs : files) (u : usage) :
  usage_file fs = Some u ->
  In id (map project_id u) ->
  exists u',
    update_usage now id chars fs
    = (Ok tt, mk_files (config_file fs) (Some u'))
    /\ map project_id u' = map project_id u
    /\ Forall (fun p => month p = now) u'
    /\ total_used u' = total_used (map (rollover now) u) + chars.
Proof.
  intros Hu Hid.
  exists (add_usage id chars (map (rollover now) u)).
  assert (Hids : map project_id (map (rollover now) u) = map project_id u).
  { rewrite map_map. apply map_ext. intro p. apply rollover_id. }
  split; [now apply update_existing|]. split; [|split].
  - now rewrite add_usage_ids.
  - apply add_usage_months, rollover_months.
  - apply add_usage_total. now rewrite Hids.
Qed.

Lemma update_adds_exactly_chars_witness :
  exists u',
    update_usage 11 "project-b" 150 (LedgerClaims.ledger 10 800 999)
    = (Ok tt, mk_files (Some LedgerClaims.two_projects) (Some u'))
    /\ map project_id u' = ["project-a"; "project-b"]%string
    /\ Forall (fun p => month p = 11) u'
    /\ total_used u' = 0 + 150.
Proof.
  apply (@update_adds_exactly_chars 11 "project-b" 150
           (LedgerClaims.ledger 10 800 999)
           [mk_project "project-a" 10 800; mk_project "project-b" 10 999]).
  - reflexivity.
  - right. left. reflexivity.
Defined.

(** X14.  Two updates for the same project in the same month add up: the
    ledger after recording [c1] and then [c2] is the ledger after
    recording [c1 + c2] once. *)
Theorem updates_accumulate
  (now : Z) (id : string) (c1 c2 : Z) (fs : files) (u : usage) :
  usage_file fs = Some u ->
  update_usage now id c2 (snd (update_usage now id c1 fs))
  = update_usage now id (c1 + c2) fs.
Proof.
  intro Hu. rewrite !(update_existing now _ _ fs Hu). cbn [snd].
  rewrite (@update_existing now id c2
             (mk_files (config_file fs)
                (Some (add_usage id c1 (map (rollover now) u))))
             _ eq_refl).
  cbn [config_file].
  rewrite (rollover_current
             (add_usage_months id c1 (rollover_months now u))).
  now rewrite add_usage_twice.
Qed.

Lemma updates_accumulate_witness :
  update_usage 11 "project-a" 50
    (snd (update_usage 11 "project-a" 100 (LedgerClaims.ledger 11 800 999)))
  = update_usage 11 "project-a" (100 + 50) (LedgerClaims.ledger 11 800 999).
Proof.
  exact (@updates_accumulate 11 "project-a" 100 50
           (LedgerClaims.ledger 11 800 999) _ eq_refl).
Defined.

(** ** The receipt of [generate_audio] *)

(** X15.  When the project ids of the ledger are distinct and the
    configuration has a [safety_limit], a successful [generate_audio]
    reports the selected project, the characters of the request, and
    [safety_limit - (chars_used + chars)] for that project, which is
    negative when the request took it past the limit; the file holds the
    ledger with the request added. *)
Theorem receipt_reports_selected_project
  (now chars limit : Z) (fs fs1 : files) (cfg : config) (u : usage)
  (sel : project) (pc : project_config) :
  config_file fs = Some cfg ->
  safety_limit cfg = Some limit ->
  load_usage_data now fs = (Ok u, fs1) ->
  NoDup (map project_id u) ->
  select_project cfg u = Ok (sel, pc) ->
  generate_audio now chars (Ok tt) fs
  = (Ok (mk_receipt (project_id sel) chars
                    (limit - (chars_used sel + chars))),
     mk_files (Some cfg) (Some (add_usage (project_id sel) chars u))).
Proof.
  intros Hc Hl Hload Hnd Hsel.
  rewrite (@generate_audio_charged now chars fs cfg u fs1 sel pc Hc Hload
             Hsel).
  pose proof (LedgerClaims.select_project_spec cfg u) as Hspec.
  rewrite Hsel in Hspec. destruct Hspec as (Hin & _).
  rewrite find_add_usage, (@find_unique u sel Hnd Hin), Hl. reflexivity.
Qed.

Lemma receipt_reports_selected_project_witness :
  generate_audio 11 300 (Ok tt) (LedgerClaims.ledger 11 800 999)
  = (Ok (mk_receipt "project-a" 300 (1000 - (800 + 300))),
     mk_files (Some LedgerClaims.two_projects)
       (Some (add_usage "project-a" 300
                [mk_project "project-a" 11 800;
                 mk_project "project-b" 11 999]))).
Proof.
  refine (@receipt_reports_selected_project 11 300 1000
            (LedgerClaims.ledger 11 800 999) (LedgerClaims.ledger 11 800 999)
            LedgerClaims.two_projects
            [mk_project "project-a" 11 800; mk_project "project-b" 11 999]
            (mk_project "project-a" 11 800)
            (mk_project_config "project-a" "keys/a.json")
            eq_refl eq_refl eq_refl _ eq_refl).
  constructor.
  - intros [H|[]]. discriminate H.
  - constructor; [intros [] | constructor].
Defined.

(** X16.  When the configuration has no [safety_limit], the selector
    works with its default of 800000, the synthesis runs and the usage is
    recorded; only then does [generate_audio] raise
    [KeyError('safety_limit')]: the call fails with the characters
    already on the ledger. *)
Theorem missing_limit_fails_after_recording
  (now chars : Z) (fs fs1 : files) (cfg : config) (u : usage)
  (sel : project) (pc : project_config) :
  config_file fs = Some cfg ->
  safety_limit cfg = None ->
  load_usage_data now fs = (Ok u, fs1) ->
  select_project cfg u = Ok (sel, pc) ->
  chars_used sel < 800000
  /\ generate_audio now chars (Ok tt) fs
     = (Raise (KeyError "safety_limit"),
        mk_files (Some cfg) (Some (add_usage (project_id sel) chars u)))
  /\ total_used (add_usage (project_id sel) chars u)
     = total_used u + chars.
Proof.
  intros Hc Hl Hload Hsel.
  pose proof (LedgerClaims.select_project_spec cfg u) as Hspec.
  rewrite Hsel in Hspec. destruct Hspec as (Hin & Hlt & _).
  unfold get_safety_limit in Hlt. rewrite Hl in Hlt.
  split; [exact Hlt|]. split.
  - rewrite (@generate_audio_charged now chars fs cfg u fs1 sel pc Hc Hload
             Hsel).
    rewrite find_add_usage.
    destruct (@find_in_ledger u sel Hin) as (q & ->). cbn [option_map].
    now rewrite Hl.
  - apply add_usage_total. now apply in_map.
Qed.

Lemma missing_limit_fails_after_recording_witness :
  800 < 800000
  /\ generate_audio 11 150 (Ok tt)
       (mk_files
          (Some (mk_config None [mk_project_config "project-a" "a.json"]))
          (Some [mk_project "project-a" 11 800]))
     = (Raise (KeyError "safety_limit"),
        mk_files
          (Some (mk_config None [mk_project_config "project-a" "a.json"]))
          (Some (add_usage "project-a" 150
                   [mk_project "project-a" 11 800])))
  /\ total_used (add_usage "project-a" 150 [mk_project "project-a" 11 800])
     = total_used [mk_project "project-a" 11 800] + 150.
Proof.
  exact (@missing_limit_fails_after_recording 11 150
           (mk_files
              (Some (mk_config None
                       [mk_project_config "project-a" "a.json"]))
              (Some [mk_project "project-a" 11 800]))
           _
           (mk_config None [mk_project_config "project-a" "a.json"])
           [mk_project "project-a" 11 800]
           (mk_project "project-a" 11 800)
           (mk_project_config "project-a" "a.json")
           eq_refl eq_refl eq_refl eq_refl).
Defined.

(** ** The first request, before a ledger exists *)

Definition fresh (now : Z) (c : project_config) : project :=
  mk_project (cfg_project_id c) now 0.

Lemma filter_fresh now limit (cs : list project_config) :
  0 < limit ->
  filter (fun p => chars_used p <? limit) (map (fresh now) cs)
  = map (fresh now) cs.
Proof.
  intro Hl. induction cs as [|c r IH]; simpl; [reflexivity|].
  apply Z.ltb_lt in Hl. rewrite Hl, IH. reflexivity.
Qed.

Lemma min_by_fresh now x (cs : list project_config) :
  chars_used x = 0 ->
  min_by chars_used x (map (fresh now) cs) = x.
Proof.
  intro Hx. induction cs as [|c r IH]; simpl; [reflexivity|].
  rewrite Hx. cbn. exact IH.
Qed.

(** X17.  The first request of an installation, when the ledger file does
    not exist yet: the read creates a ledger with every configured
    project at 0 characters in the current month, the selector takes the
    first configured project (all are equally unused), and after the call
    the file lists that project at [chars] and the others at 0. *)
Theorem first_request_uses_first_project
  (now chars limit : Z) (fs : files) (cfg : config)
  (p : project_config) (ps : list project_config) :
  usage_file fs = None ->
  config_file fs = Some cfg ->
  projects cfg = p :: ps ->
  safety_limit cfg = Some limit ->
  0 < limit ->
  generate_audio now chars (Ok tt) fs
  = (Ok (mk_receipt (cfg_project_id p) chars (limit - chars)),
     mk_files (Some cfg)
       (Some (mk_project (cfg_project_id p) now chars
              :: map (fresh now) ps))).
Proof.
  intros Hu Hc Hp Hl Hpos.
  set (u := map (fresh now) (projects cfg)).
  assert (Hload : load_usage_data now fs
                  = (Ok u, mk_files (Some cfg) (Some u))).
  { unfold load_usage_data, bind, load_tts_config. rewrite Hu, Hc.
    cbn. now rewrite Hc. }
  assert (Hsel : select_project cfg u = Ok (fresh now p, p)).
  { unfold select_project, get_safety_limit. rewrite Hl. subst u.
    rewrite (@filter_fresh now limit (projects cfg) Hpos), Hp.
    cbn [map]. rewrite (@min_by_fresh now (fresh now p) ps eq_refl).
    cbn [find fresh project_id]. now rewrite String.eqb_refl. }
  rewrite (@generate_audio_charged now chars fs cfg u _ _ _ Hc Hload Hsel).
  subst u. rewrite Hp. cbn [map fresh project_id add_usage].
  rewrite String.eqb_refl. unfold has_id. cbn [find project_id].
  rewrite String.eqb_refl, Hl. reflexivity.
Qed.

Lemma first_request_uses_first_project_witness :
  generate_audio 11 150 (Ok tt)
    (mk_files (Some LedgerClaims.two_projects) None)
  = (Ok (mk_receipt "project-a" 150 (1000 - 150)),
     mk_files (Some LedgerClaims.two_projects)
       (Some (mk_project "project-a" 11 150
              :: map (fresh 11)
                     [mk_project_config "project-b" "keys/b.json"]))).
Proof.
  refine (@first_request_uses_first_project 11 150 1000
            (mk_files (Some LedgerClaims.two_projects) None)
            LedgerClaims.two_projects
            (mk_project_config "project-a" "keys/a.json")
            [mk_project_config "project-b" "keys/b.json"]
            eq_refl eq_refl eq_refl eq_refl _).
  reflexivity.
Defined.

End LedgerMore.

(* ================================================================== *)
(** * The track as text: written by script_generator.py, read by
      tts_generator.py *)
(* ================================================================== *)

Module Vtt.
Import Text Script.

Definition newline : char := 0x0A%N.
Definition carriage_return : char := 0x0D%N.
Definition less_than : char := 0x3C%N.
Definition greater_than : char := 0x3E%N.

(** ** String primitives *)

(** [s.lstrip()], [s.rstrip()] and [s.strip()]. *)
Fixpoint lstrip (s : str) : str :=
  match s with
  | [] => []
  | c :: r => if isspace c then lstrip r else s
  end.

Fixpoint rstrip (s : str) : str :=
  match s with
  | [] => []
  | c :: r =>
      match rstrip r with
      | [] => if isspace c then [] else [c]
      | r' => c :: r'
      end
  end.

Definition strip (s : str) : str := rstrip (lstrip s).

(** [s.startswith(p)] and [p in s]. *)
Fixpoint starts_with (p s : str) : bool :=
  match p, s with
  | [], _ => true
  | _ :: _, [] => false
  | a :: p', b :: s' => (a =? b)%N && starts_with p' s'
  end.

Fixpoint contains (p s : str) : bool :=
  starts_with p s
  || match s with
     | [] => false
     | _ :: r => contains p r
     end.

Definition arrow : str := of_string "-->".

Definition has_arrow (s : str) : bool := contains arrow s.

(** [s.split(sep)] for a separator of one character: the pieces between
    the separators, empty ones included. *)
Fixpoint split_on (sep : char) (s : str) : list str :=
  match s with
  | [] => [[]]
  | c :: r => if (c =? sep)%N then [] :: split_on sep r
              else push c (split_on sep r)
  end.

(** ** The layout of a track: header, then a timing line and the text
       lines of each cue *)

Section Render.
Variable A : arith.

(** The text of a time on a timing line: what [format_vtt_time] returned
    for it. *)
Variable format_vtt_time : num A -> str.

(** [f"{format_vtt_time(start_time)} --> {format_vtt_time(end_time)}"] *)
Definition timing_line (c : cue A) : str :=
  format_vtt_time (start_time c) ++ of_string " --> "
  ++ format_vtt_time (end_time c).

(** The two elements a cue appends to [vtt_lines]: the timing line, and
    its text lines joined by newlines with one more newline at the end
    (a TTS cue has one text line). *)
Definition cue_lines (c : cue A) : list str :=
  [timing_line c; join [newline] (lines c) ++ [newline]].

Definition tts_header : list str :=
  [of_string "WEBVTT" ++ [newline];
   of_string "NOTE";
   of_string "TTS instructions for voice synthesis";
   of_string "Duration marks guide audio generation timing" ++ [newline]].

Definition captions_header : list str :=
  [of_string "WEBVTT" ++ [newline]].

(** ['\n'.join(vtt_lines)] *)
Definition render (header : list str) (cues : list (cue A)) : str :=
  join [newline] (header ++ flat_map cue_lines cues).

End Render.

(** ** The two builders, as they run

    [generate_tts_vtt] and [generate_captions_vtt] append to [vtt_lines]
    inside their loops and call [format_vtt_time] twice per segment, on
    [start_time] and then on [end_time]; an exception of either call
    ends the build.  The state of a loop is [current_time] and
    [vtt_lines], or the exception raised so far. *)

(** The body of [for i, segment in enumerate(segments)]. *)
Definition tts_write_step (emphasis : str -> str)
  (duration_per_segment : float)
  (st : result (float * list str)) (entry : nat * str)
  : result (float * list str) :=
  '(current_time, vtt_lines) <== st ;;
  let '(i, segment) := entry in
  let start := current_time in
  let stop := (current_time + duration_per_segment)%float in
  let text := if Nat.eqb i 0 then rate_slow segment else segment in
  let text := emphasis text in
  s <== Clock.format_vtt_time start ;;
  e <== Clock.format_vtt_time stop ;;
  Ok (stop,
      vtt_lines ++ [s ++ of_string " --> " ++ e; text ++ [newline]]).

(** [generate_tts_vtt], with the string it returns. *)
Definition generate_tts_vtt_text (emphasis : str -> str)
  (summary_text : str) (total_duration : float) : result str :=
  let segments :=
    split_into_segments summary_text default_max_chars default_max_lines in
  duration_per_segment <==
    divide binary64 total_duration (len segments) ;;
  st <== fold_left (tts_write_step emphasis duration_per_segment)
                   (enumerate segments) (Ok (0%float, tts_header)) ;;
  Ok (join [newline] (snd st)).



(** ** Reading a track: [parse_vtt_file] *)

(** One element of the list [parse_vtt_file] returns. *)
Record vtt_segment := mk_vtt_segment {
  timing : str;
  text : str
}.

(** The end of a cue: [text = ' '.join(text_lines)], kept [if text]. *)
Definition close_cue (timing_of_cue : str) (text_lines : list str)
  : list vtt_segment :=
  match join [space] text_lines with
  | [] => []
  | (_ :: _) as t => [mk_vtt_segment timing_of_cue t]
  end.

(** The two nested [while] loops over [lines], as one pass.  The state
    is [None] in the outer loop, and [Some (timing, text_lines)] in the
    inner loop.  The line that ends the inner loop is stepped over by the
    [i += 1] that closes the outer loop body. *)
Fixpoint parse_lines (st : option (str * list str)) (ls : list str)
  : list vtt_segment :=
  match ls with
  | [] =>
      match st with
      | Some (t, text_lines) => close_cue t text_lines
      | None => []
      end
  | l :: r =>
      match st with
      | None =>
          if has_arrow (strip l)
          then parse_lines (Some (strip l, [])) r
          else parse_lines None r
      | Some (t, text_lines) =>
          match strip l with
          | (_ :: _) as stripped =>
              if has_arrow l
              then close_cue t text_lines ++ parse_lines None r
              else parse_lines (Some (t, text_lines ++ [stripped])) r
          | [] => close_cue t text_lines ++ parse_lines None r
          end
      end
  end.

(** [content] is what [f.read()] returned. *)
Definition parse_vtt_file (content : str) : list vtt_segment :=
  parse_lines None (split_on newline content).

(** ** [generate_audio]: the text that is synthesised and billed *)

(** [re.sub(r'<[^>]+>', '', s)].  A match starts at a [<] and ends at the
    next [>], with at least one character between them.  [pending] holds
    the characters read since a [<] that may open a match. *)
Fixpoint strip_tags_go (pending : option str) (s : str) : str :=
  match s with
  | [] =>
      match pending with
      | None => []
      | Some buf => less_than :: buf
      end
  | c :: r =>
      match pending with
      | None =>
          if (c =? less_than)%N then strip_tags_go (Some []) r
          else c :: strip_tags_go None r
      | Some buf =>
          if (c =? greater_than)%N then
            match buf with
            | [] => less_than :: greater_than :: strip_tags_go None r
            | _ :: _ => strip_tags_go None r
            end
          else strip_tags_go (Some (buf ++ [c])) r
      end
  end.

Definition strip_tags (s : str) : str := strip_tags_go None s.

(** [full_text] of [generate_audio], from the content of the TTS track. *)
Definition full_text (content : str) : str :=
  strip_tags (join [space] (map text (parse_vtt_file content))).

End Vtt.

Module VttFacts.
Import Text TextFacts Script Vtt.

(** ** [strip] and [in] *)

Definition spaceless (p : str) : Prop :=
  Forall (fun c => isspace c = false) p.

Lemma differs_from_space a c :
  isspace a = false -> isspace c = true -> (a =? c)%N = false.
Proof.
  intros Ha Hc. apply N.eqb_neq. intros ->. congruence.
Qed.

Lemma starts_with_lstrip p s :
  p <> [] -> spaceless p -> starts_with p s = true ->
  lstrip s = s.
Proof.
  intros Hne Hp. destruct p as [|a p]; [now elim Hne|].
  destruct s as [|c r]; [discriminate|]. simpl.
  inversion Hp as [|? ? Ha _]; subst.
  destruct (isspace c) eqn:Hc; [|reflexivity].
  now rewrite (differs_from_space _ _ Ha Hc).
Qed.

Lemma contains_lstrip p s :
  p <> [] -> spaceless p -> contains p (lstrip s) = contains p s.
Proof.
  intros Hne Hp. induction s as [|c r IH]; [reflexivity|].
  cbn [lstrip]. destruct (isspace c) eqn:Hc; [|reflexivity].
  rewrite IH. cbn [contains].
  destruct p as [|a p]; [now elim Hne|].
  inversion Hp as [|? ? Ha _]; subst.
  cbn [starts_with]. now rewrite (differs_from_space _ _ Ha Hc).
Qed.

Lemma starts_with_rstrip p :
  spaceless p -> forall s, starts_with p (rstrip s) = starts_with p s.
Proof.
  induction 1 as [|a p Ha _ IH]; intro s; [reflexivity|].
  destruct s as [|c r]; [reflexivity|].
  cbn [rstrip]. specialize (IH r).
  destruct (rstrip r) as [|c' r'] eqn:Er.
  - destruct (isspace c) eqn:Hc; cbn [starts_with].
    + now rewrite (differs_from_space _ _ Ha Hc).
    + now rewrite IH.
  - cbn [starts_with]. now rewrite IH.
Qed.

Lemma contains_nil_only p : p <> [] -> contains p [] = false.
Proof. destruct p; [intro H; now elim H | reflexivity]. Qed.

Lemma contains_rstrip p :
  p <> [] -> spaceless p ->
  forall s, contains p (rstrip s) = contains p s.
Proof.
  intros Hne Hp. induction s as [|c r IH]; [reflexivity|].
  pose proof (starts_with_rstrip Hp (c :: r)) as Hs.
  change (contains p (c :: r))
    with (starts_with p (c :: r) || contains p r).
  rewrite <- IH, <- Hs. cbn [rstrip].
  destruct (rstrip r) as [|c' r'] eqn:Er; [|reflexivity].
  rewrite (contains_nil_only Hne), orb_false_r.
  destruct (isspace c).
  - rewrite (contains_nil_only Hne).
    destruct p; [now elim Hne | reflexivity].
  - cbn [contains]. destruct p as [|a p]; [now elim Hne|].
    cbn [starts_with]. now rewrite !orb_false_r.
Qed.

Lemma arrow_spaceless : arrow <> [] /\ spaceless arrow.
Proof. split; [discriminate | repeat constructor]. Qed.

(** Whitespace at the ends has no part in an arrow. *)
Lemma has_arrow_strip s : has_arrow (strip s) = has_arrow s.
Proof.
  destruct arrow_spaceless as [Hne Hp]. unfold has_arrow, strip.
  now rewrite (contains_rstrip Hne Hp), (contains_lstrip _ Hne Hp).
Qed.

Lemma starts_with_self p y : starts_with p (p ++ y) = true.
Proof.
  induction p as [|a p IH]; [reflexivity|].
  cbn. now rewrite N.eqb_refl, IH.
Qed.

Lemma contains_after p x s :
  contains p s = true -> contains p (x ++ s) = true.
Proof.
  intro H. induction x as [|c x IH]; [exact H|].
  cbn [app contains]. rewrite IH. apply orb_true_r.
Qed.

Lemma contains_self p y : contains p (p ++ y) = true.
Proof.
  pose proof (starts_with_self p y) as H.
  destruct (p ++ y); cbn [contains]; now rewrite H.
Qed.

Lemma contains_middle p x y : contains p (x ++ p ++ y) = true.
Proof. apply contains_after, contains_self. Qed.

(** ** [split('\n')] *)

Lemma split_on_nonempty sep s : split_on sep s <> [].
Proof.
  destruct s as [|c r]; simpl; [discriminate|].
  destruct (c =? sep)%N; [discriminate|].
  destruct (split_on sep r); discriminate.
Qed.

Lemma push_app c (l l' : list str) :
  l <> [] -> push c (l ++ l') = push c l ++ l'.
Proof. destruct l; [intro H; now elim H | reflexivity]. Qed.

Lemma split_on_app_sep sep x y :
  split_on sep (x ++ sep :: y) = split_on sep x ++ split_on sep y.
Proof.
  induction x as [|c x IH]; simpl.
  - now rewrite N.eqb_refl.
  - rewrite IH. destruct (c =? sep)%N; [reflexivity|].
    apply push_app, split_on_nonempty.
Qed.

Lemma split_on_free sep s :
  Forall (fun c => c <> sep) s -> split_on sep s = [s].
Proof.
  induction 1 as [|c r Hc _ IH]; [reflexivity|].
  simpl. apply N.eqb_neq in Hc. now rewrite Hc, IH.
Qed.

(** [sep.join(l).split(sep)] splits every string of [l]. *)
Lemma split_on_join sep (l : list str) :
  l <> [] ->
  split_on sep (join [sep] l) = List.concat (map (split_on sep) l).
Proof.
  induction l as [|x r IH]; [intro H; now elim H|]. intros _.
  destruct r as [|y r].
  - simpl. now rewrite app_nil_r.
  - rewrite join_cons.
    change ([sep] ++ join [sep] (y :: r)) with (sep :: join [sep] (y :: r)).
    rewrite split_on_app_sep, IH by discriminate. reflexivity.
Qed.

(** ** What [parse_vtt_file] returns *)

Lemma close_cue_sound t text_lines seg :
  has_arrow t = true -> In seg (close_cue t text_lines) ->
  has_arrow (timing seg) = true /\ text seg <> [].
Proof.
  intros Ht. unfold close_cue.
  destruct (join [space] text_lines); [intros []|].
  intros [<-|[]]. split; [assumption | discriminate].
Qed.

Lemma parse_lines_sound ls :
  forall st seg,
    match st with
    | Some (t, _) => has_arrow t = true
    | None => True
    end ->
    In seg (parse_lines st ls) ->
    has_arrow (timing seg) = true /\ text seg <> [].
Proof.
  induction ls as [|l r IH]; intros st seg Hst Hin.
  - destruct st as [[t acc]|]; [|destruct Hin].
    now apply (close_cue_sound t acc).
  - cbn [parse_lines] in Hin. destruct st as [[t acc]|].
    + destruct (strip l) as [|c stripped] eqn:Es.
      * apply in_app_or in Hin. destruct Hin as [Hin|Hin].
        -- now apply (close_cue_sound t acc).
        -- now apply (IH None).
      * destruct (has_arrow l).
        -- apply in_app_or in Hin. destruct Hin as [Hin|Hin].
           ++ now apply (close_cue_sound t acc).
           ++ now apply (IH None).
        -- now apply (IH (Some (t, acc ++ [c :: stripped]))).
    + destruct (has_arrow (strip l)) eqn:Ha.
      * now apply (IH (Some (strip l, []))).
      * now apply (IH None).
Qed.

(** X18.  Whatever the content of the file, every segment that
    [parse_vtt_file] returns has a timing line that contains [-->] and a
    text that is not empty: a timing line with no text under it gives no
    segment. *)
Theorem parsed_segments_are_timed_and_have_text :
  forall (content : str) (seg : vtt_segment),
    In seg (parse_vtt_file content) ->
    has_arrow (timing seg) = true /\ text seg <> [].
Proof.
  intros content seg. unfold parse_vtt_file.
  now apply (parse_lines_sound (split_on newline content) None).
Qed.

Lemma parsed_segments_are_timed_and_have_text_witness :
  has_arrow (of_string "00:00:01.000 --> 00:00:02.000") = true
  /\ of_string "Hello there" <> [].
Proof.
  apply (parsed_segments_are_timed_and_have_text
           (of_string "WEBVTT" ++ [newline; newline]
            ++ of_string "00:00:00.000 --> 00:00:01.000" ++ [newline; newline]
            ++ of_string "00:00:01.000 --> 00:00:02.000" ++ [newline]
            ++ of_string "Hello there" ++ [newline])
           (mk_vtt_segment (of_string "00:00:01.000 --> 00:00:02.000")
                           (of_string "Hello there"))).
  vm_compute. left. reflexivity.
Defined.

(** ** Reading back what was written *)

(** A string that stays on one line of the file: no line feed, and no
    carriage return, which reading in text mode would turn into one. *)
Definition one_line (l : str) : Prop :=
  Forall (fun c => c <> newline /\ c <> carriage_return) l.

(** A text line that the reader takes as text: on one line, without
    [-->], and not blank. *)
Definition readable (l : str) : Prop :=
  one_line l /\ has_arrow l = false /\ strip l <> [].

Lemma one_line_split l : one_line l -> split_on newline l = [l].
Proof.
  intro H. apply split_on_free. eapply Forall_impl; [|exact H].
  now intros c [Hc _].
Qed.

Lemma parse_header hs rest :
  Forall (fun l => has_arrow (strip l) = false) hs ->
  parse_lines None (hs ++ rest) = parse_lines None rest.
Proof.
  induction 1 as [|h hs Hh _ IH]; [reflexivity|].
  cbn [app parse_lines]. now rewrite Hh.
Qed.

Lemma parse_text_lines t ls rest :
  Forall (fun l => strip l <> [] /\ has_arrow l = false) ls ->
  forall text_lines,
    parse_lines (Some (t, text_lines)) (ls ++ [] :: rest)
    = close_cue t (text_lines ++ map strip ls) ++ parse_lines None rest.
Proof.
  induction 1 as [|l ls [Hs Ha] _ IH]; intro acc.
  - cbn. now rewrite app_nil_r.
  - cbn [app parse_lines map]. rewrite Ha.
    destruct (strip l) as [|c stripped] eqn:Es; [now elim Hs|].
    rewrite IH, <- app_assoc. reflexivity.
Qed.

Lemma join_starts_nonempty sep (x : str) r :
  x <> [] -> join sep (x :: r) <> [].
Proof.
  intro Hx. destruct r; simpl; [assumption|].
  destruct x; [now elim Hx | discriminate].
Qed.

Lemma parse_cue tl ls rest :
  has_arrow (strip tl) = true ->
  ls <> [] ->
  Forall (fun l => strip l <> [] /\ has_arrow l = false) ls ->
  parse_lines None (tl :: ls ++ [] :: rest)
  = mk_vtt_segment (strip tl) (join [space] (map strip ls))
    :: parse_lines None rest.
Proof.
  intros Ht Hne Hls. cbn [parse_lines]. rewrite Ht.
  rewrite (parse_text_lines (strip tl) rest Hls). cbn [app].
  unfold close_cue.
  destruct ls as [|l ls]; [now elim Hne|].
  inversion Hls as [|? ? [Hs _] _]; subst. cbn [map].
  pose proof (@join_starts_nonempty [space] (strip l) (map strip ls) Hs)
    as Hj.
  destruct (join [space] (strip l :: map strip ls)); [now elim Hj|].
  reflexivity.
Qed.

Section ReadBack.
Variable A : arith.
Variable format_vtt_time : num A -> str.
Hypothesis format_one_line : forall x, one_line (format_vtt_time x).

(** What the reader makes of a cue. *)
Definition read_back (c : cue A) : vtt_segment :=
  mk_vtt_segment (strip (timing_line format_vtt_time c))
                 (join [space] (map strip (lines c))).

(** The lines a cue takes in the file. *)
Definition block (c : cue A) : list str :=
  timing_line format_vtt_time c :: lines c ++ [[]].

Lemma timing_one_line c : one_line (timing_line format_vtt_time c).
Proof.
  unfold timing_line, one_line. rewrite !Forall_app.
  split; [apply format_one_line|]. split; [|apply format_one_line].
  repeat constructor; discriminate.
Qed.

Lemma timing_has_arrow c :
  has_arrow (strip (timing_line format_vtt_time c)) = true.
Proof.
  rewrite has_arrow_strip. unfold has_arrow, timing_line.
  change (of_string " --> ") with ([space] ++ arrow ++ [space]).
  rewrite <- !app_assoc, app_assoc. apply contains_middle.
Qed.

Lemma cue_lines_split c :
  lines c <> [] -> Forall one_line (lines c) ->
  List.concat (map (split_on newline) (cue_lines format_vtt_time c))
  = block c.
Proof.
  intros Hne Hl. unfold cue_lines, block. cbn [map List.concat].
  rewrite (one_line_split (timing_one_line c)), app_nil_r. cbn [app].
  f_equal.
  rewrite <- (app_nil_l [newline]) at 1.
  change (join [newline] (lines c) ++ [] ++ [newline])
    with (join [newline] (lines c) ++ newline :: []).
  rewrite split_on_app_sep, split_on_join by assumption.
  f_equal. clear Hne. induction Hl as [|l ls Hone _ IH]; [reflexivity|].
  cbn [map List.concat]. now rewrite (one_line_split Hone), IH.
Qed.

Lemma cues_split cues :
  Forall (fun c => lines c <> [] /\ Forall readable (lines c)) cues ->
  List.concat (map (split_on newline)
                   (flat_map (cue_lines format_vtt_time) cues))
  = flat_map block cues.
Proof.
  induction 1 as [|c cues [Hne Hr] _ IH]; [reflexivity|].
  cbn [flat_map]. rewrite map_app, concat_app, IH. f_equal.
  apply cue_lines_split; [assumption|].
  eapply Forall_impl; [|exact Hr]. now intros l [Hl _].
Qed.

Lemma parse_blocks cues :
  Forall (fun c => lines c <> [] /\ Forall readable (lines c)) cues ->
  parse_lines None (flat_map block cues) = map read_back cues.
Proof.
  induction 1 as [|c cues [Hne Hr] _ IH]; [reflexivity|].
  cbn [flat_map map]. unfold block at 1.
  rewrite <- app_comm_cons, <- app_assoc. cbn [app].
  rewrite parse_cue, IH; [reflexivity | apply timing_has_arrow
                          | assumption |].
  eapply Forall_impl; [|exact Hr]. now intros l (_ & Ha & Hs).
Qed.

Lemma parse_render header cues :
  header <> [] ->
  Forall (fun l => has_arrow (strip l) = false)
         (List.concat (map (split_on newline) header)) ->
  Forall (fun c => lines c <> [] /\ Forall readable (lines c)) cues ->
  parse_vtt_file (render format_vtt_time header cues)
  = map read_back cues.
Proof.
  intros Hne Hh Hc. unfold parse_vtt_file, render.
  rewrite split_on_join
    by (destruct header; [now elim Hne | discriminate]).
  rewrite map_app, concat_app, (cues_split Hc), (parse_header _ Hh).
  now apply parse_blocks.
Qed.

End ReadBack.

(** X19.  [parse_vtt_file] reads back what the track builders write.
    When the timestamps hold no line break and every text line of every
    cue is on one line, holds no [-->] and is not blank, the parse of the
    written track (TTS or captions header) returns one segment per cue,
    in order: its timing line, and its text lines stripped and joined by
    blanks. *)
Theorem parse_reads_back_written_track
  (A : arith) (format_vtt_time : num A -> str) (cues : list (cue A)) :
  (forall x, one_line (format_vtt_time x)) ->
  Forall (fun c => lines c <> [] /\ Forall readable (lines c)) cues ->
  parse_vtt_file (render format_vtt_time tts_header cues)
  = map (read_back format_vtt_time) cues
  /\ parse_vtt_file (render format_vtt_time captions_header cues)
     = map (read_back format_vtt_time) cues.
Proof.
  intros Hf Hc. split; apply parse_render; try assumption;
    try discriminate; repeat constructor.
Qed.

Definition sample_time (x : num binary64) : str :=
  of_string "00:00:01.000".

Lemma parse_reads_back_written_track_witness :
  parse_vtt_file
    (@render binary64 sample_time tts_header
       [mk_cue binary64 0%float 1%float
               [of_string "<rate slow>Hello there</rate>"]])
  = map (@read_back binary64 sample_time)
        [mk_cue binary64 0%float 1%float
                [of_string "<rate slow>Hello there</rate>"]]
  /\ parse_vtt_file
       (@render binary64 sample_time captions_header
          [mk_cue binary64 0%float 1%float
                  [of_string "<rate slow>Hello there</rate>"]])
     = map (@read_back binary64 sample_time)
           [mk_cue binary64 0%float 1%float
                   [of_string "<rate slow>Hello there</rate>"]].
Proof.
  apply (@parse_reads_back_written_track binary64 sample_time
           [mk_cue binary64 0%float 1%float
                   [of_string "<rate slow>Hello there</rate>"]]).
  - intro x. repeat constructor; discriminate.
  - constructor; [|constructor]. split; [discriminate|].
    constructor; [|constructor]. split; [|split].
    + repeat constructor; discriminate.
    + reflexivity.
    + discriminate.
Defined.

(** ** Markup and the synthesised text *)

Definition no_less_than (s : str) : Prop :=
  Forall (fun c => c <> less_than) s.

Lemma strip_tags_free t rest :
  no_less_than t ->
  strip_tags_go None (t ++ rest) = t ++ strip_tags_go None rest.
Proof.
  induction 1 as [|c t Hc _ IH]; [reflexivity|].
  cbn [app strip_tags_go]. apply N.eqb_neq in Hc. now rewrite Hc, IH.
Qed.

(** A [<] opens a match that runs to the next [>], when at least one
    character stands between them. *)
Lemma strip_tags_tag body rest :
  Forall (fun c => c <> greater_than) body ->
  forall buf,
    buf ++ body <> [] ->
    strip_tags_go (Some buf) (body ++ greater_than :: rest)
    = strip_tags_go None rest.
Proof.
  induction 1 as [|c body Hc _ IH]; intros buf Hne.
  - cbn. rewrite app_nil_r in Hne.
    destruct buf; [now elim Hne | reflexivity].
  - cbn [app strip_tags_go]. apply N.eqb_neq in Hc. rewrite Hc.
    apply IH. rewrite <- app_assoc. exact Hne.
Qed.

(** X20.  The tag filter of [generate_audio], [re.sub(r'<[^>]+>', '', s)],
    leaves a text without [<] as it is, and takes out a tag [<body>]
    (with a body that is not empty and holds no [>]) that stands after
    text without [<]; so the slow-rate markup around a text without [<]
    is taken out and the text is left. *)
Theorem strip_tags_removes_markup :
  (forall t, no_less_than t -> strip_tags t = t)
  /\ (forall before body rest,
        no_less_than before ->
        body <> [] ->
        Forall (fun c => c <> greater_than) body ->
        strip_tags (before ++ less_than :: body ++ greater_than :: rest)
        = before ++ strip_tags rest)
  /\ (forall t, no_less_than t -> strip_tags (rate_slow t) = t).
Proof.
  assert (Hfree : forall t, no_less_than t -> strip_tags t = t).
  { intros t Ht. unfold strip_tags.
    rewrite <- (app_nil_r t) at 1. rewrite (strip_tags_free [] Ht).
    apply app_nil_r. }
  assert (Htag : forall before body rest,
             no_less_than before -> body <> [] ->
             Forall (fun c => c <> greater_than) body ->
             strip_tags (before ++ less_than :: body
                         ++ greater_than :: rest)
             = before ++ strip_tags rest).
  { intros before body rest Hb Hne Hbody. unfold strip_tags.
    rewrite (strip_tags_free _ Hb). f_equal.
    cbn [strip_tags_go]. rewrite N.eqb_refl.
    now apply strip_tags_tag. }
  split; [exact Hfree|]. split; [exact Htag|].
  intros t Ht. unfold rate_slow.
  change (of_string "<rate slow>" ++ t ++ of_string "</rate>")
    with ([] ++ less_than :: of_string "rate slow"
          ++ greater_than :: (t ++ of_string "</rate>")).
  rewrite Htag;
    [|constructor | discriminate | repeat constructor; discriminate].
  cbn [app]. unfold strip_tags. rewrite (strip_tags_free _ Ht).
  cbn. apply app_nil_r.
Qed.

Lemma strip_tags_removes_markup_witness :
  strip_tags (rate_slow (of_string "2 > 1, they said")) 
  = of_string "2 > 1, they said".
Proof.
  apply (proj2 (proj2 strip_tags_removes_markup)).
  repeat constructor; discriminate.
Defined.

End VttFacts.

(* ================================================================== *)
(** * What [format_vtt_time] raises, and what it returns *)
(* ================================================================== *)

Module ClockFacts.
Import Text Clock Vtt VttFacts.


Lemma and_then_ok {X Y : Type} (r : result X) (k : X -> result Y) y :
  and_then r k = Ok y -> exists x, r = Ok x /\ k x = Ok y.
Proof. destruct r as [x|e']; simpl; intro H; [eauto | discriminate]. Qed.






(** *** The characters of a formatted time *)

(** A character of a time: a digit, a sign, a separator or a letter of
    [inf] and [nan]; in any case no line break. *)
Lemma digits_one_line u : one_line (digits u).
Proof.
  induction u; cbn [digits]; constructor; try assumption;
    split; discriminate.
Qed.

Lemma zfill_one_line width s : one_line s -> one_line (zfill width s).
Proof.
  intro H. unfold zfill, one_line. apply Forall_app. split; [|exact H].
  apply Forall_forall. intros c Hc. apply repeat_spec in Hc. subst c.
  split; discriminate.
Qed.

Lemma format_02d_one_line n : one_line (format_02d n).
Proof.
  unfold format_02d, decimal.
  destruct (n <? 0)%Z.
  - apply Forall_app. split; [repeat constructor; discriminate|].
    apply zfill_one_line, digits_one_line.
  - apply zfill_one_line, digits_one_line.
Qed.

Lemma format_06_3f_one_line x : one_line (format_06_3f x).
Proof.
  unfold format_06_3f.
  destruct (Prim2SF x) as [s|s| |s m e].
  - destruct s; repeat constructor; discriminate.
  - destruct s; repeat constructor; discriminate.
  - repeat constructor; discriminate.
  - cbv zeta.
    assert (Hb : one_line
              (decimal (thousandths m e / 1000) ++ of_string "."
               ++ zfill 3 (decimal (thousandths m e mod 1000)))).
    { unfold decimal. apply Forall_app. split; [apply digits_one_line|].
      apply Forall_app. split; [repeat constructor; discriminate|].
      apply zfill_one_line, digits_one_line. }
    destruct s.
    + apply Forall_app. split; [repeat constructor; discriminate|].
      now apply zfill_one_line.
    + now apply zfill_one_line.
Qed.

Lemma format_vtt_time_one_line secs s :
  format_vtt_time secs = Ok s -> one_line s.
Proof.
  unfold format_vtt_time. intro H.
  apply and_then_ok in H. destruct H as (td & _ & H).
  apply and_then_ok in H. destruct H as (hours & _ & H).
  apply and_then_ok in H. destruct H as (minutes & _ & H).
  injection H as <-.
  apply Forall_app. split; [apply format_02d_one_line|].
  constructor; [split; discriminate|].
  apply Forall_app. split; [apply format_02d_one_line|].
  constructor; [split; discriminate|].
  apply format_06_3f_one_line.
Qed.

End ClockFacts.

(* ================================================================== *)
(** * The builders and the cues of their loops *)
(* ================================================================== *)

Module BuildFacts.
Import Text TextFacts Script SegmenterFacts TrackFacts FloatFacts Timeline.
Import Vtt VttFacts ClockFacts.


(** The two elements a cue adds to [vtt_lines]. *)
Definition write_cue (c : cue binary64) : result (list str) :=
  s <== Clock.format_vtt_time (start_time c) ;;
  e <== Clock.format_vtt_time (end_time c) ;;
  Ok [s ++ of_string " --> " ++ e; join [newline] (lines c) ++ [newline]].

Fixpoint write_cues (cues : list (cue binary64)) : result (list str) :=
  match cues with
  | [] => Ok []
  | c :: r =>
      ls <== write_cue c ;;
      rest <== write_cues r ;;
      Ok (ls ++ rest)
  end.

(** The outcome of a build whose loop goes through [cues]: the text of
    the track, or the first exception of [format_vtt_time] on their
    times, taken cue by cue, start before end. *)
Definition written (header : list str) (cues : list (cue binary64))
  : result str :=
  ls <== write_cues cues ;;
  Ok (join [newline] (header ++ ls)).


Section Loop.
Variable X : Type.
Variable payload : X -> list str.
Variable d : float.

(** The common shape of the two loop bodies. *)
Definition write_step (st : result (float * list str)) (x : X)
  : result (float * list str) :=
  '(current_time, vtt_lines) <== st ;;
  s <== Clock.format_vtt_time current_time ;;
  e <== Clock.format_vtt_time (current_time + d)%float ;;
  Ok ((current_time + d)%float,
      vtt_lines ++ [s ++ of_string " --> " ++ e;
                    join [newline] (payload x) ++ [newline]]).

Variable step : result (float * list str) -> X -> result (float * list str).
Hypothesis step_eq : forall st x, step st x = write_step st x.

Lemma fold_raise xs e : fold_left step xs (Raise e) = Raise e.
Proof.
  induction xs as [|x r IH]; [reflexivity|].
  cbn [fold_left]. rewrite step_eq. exact IH.
Qed.

Lemma write_fold (Y : Type) (k : list str -> result Y) xs :
  forall t ls,
    (st <== fold_left step xs (Ok (t, ls)) ;; k (snd st))
    = (new <== write_cues (@cues_from binary64 d t (map payload xs)) ;;
       k (ls ++ new)).
Proof.
  induction xs as [|x r IH]; intros t ls.
  - cbn. now rewrite app_nil_r.
  - cbn [fold_left map cues_from write_cues]. rewrite step_eq.
    unfold write_step, write_cue. cbn [and_then start_time end_time lines].
    change (add binary64 t d) with (t + d)%float.
    destruct (Clock.format_vtt_time t) as [s|e]; cbn [and_then];
      [|now rewrite fold_raise].
    destruct (Clock.format_vtt_time (t + d)) as [s'|e]; cbn [and_then];
      [|now rewrite fold_raise].
    rewrite IH.
    destruct (write_cues _) as [new|e]; cbn [and_then]; [|reflexivity].
    now rewrite <- app_assoc.
Qed.

End Loop.

(** Each builder returns what [written] makes of the cues of its loop. *)
Lemma generate_tts_vtt_text_cues emphasis text total :
  generate_tts_vtt_text emphasis text total
  = (cues <== generate_tts_vtt binary64 emphasis text total ;;
     written tts_header cues).
Proof.
  unfold generate_tts_vtt_text, generate_tts_vtt. cbv zeta.
  destruct (divide binary64 total _) as [d|e]; [|reflexivity].
  cbn [and_then].
  assert (Hstep : forall st x,
             tts_write_step emphasis d st x
             = write_step (tts_text emphasis) d st x)
    by (intros [[t ls]|e] [i s]; reflexivity).
  rewrite (@write_fold _ (tts_text emphasis) d _ Hstep _
             (fun ls => Ok (join [newline] ls))).
  rewrite tts_fold. reflexivity.
Qed.


(** The text of a written track: the header and the cues laid out with
    the times [format_vtt_time] returned. *)
Definition clock (t : float) : str :=
  match Clock.format_vtt_time t with
  | Ok s => s
  | Raise _ => []
  end.

Lemma clock_one_line t : one_line (clock t).
Proof.
  unfold clock. destruct (Clock.format_vtt_time t) as [s|e] eqn:E.
  - now apply format_vtt_time_one_line in E.
  - constructor.
Qed.

Lemma write_cues_layout cues ls :
  write_cues cues = Ok ls ->
  ls = flat_map (@cue_lines binary64 clock) cues.
Proof.
  revert ls. induction cues as [|c r IH]; intros ls H.
  - now injection H as <-.
  - cbn [write_cues] in H. unfold write_cue in H.
    cbn [flat_map]. unfold cue_lines at 1, timing_line, clock at 1 2.
    destruct (Clock.format_vtt_time (start_time c)) as [s|];
      [|discriminate].
    destruct (Clock.format_vtt_time (end_time c)) as [s'|];
      [|discriminate].
    cbn [and_then] in H.
    destruct (write_cues r) as [rest|]; [|discriminate].
    cbn [and_then] in H. injection H as <-.
    now rewrite (IH rest eq_refl).
Qed.

Lemma written_layout header cues content :
  written header cues = Ok content ->
  content = @render binary64 clock header cues.
Proof.
  unfold written, render. intro H.
  destruct (write_cues cues) as [ls|] eqn:E; [|discriminate].
  cbn [and_then] in H. injection H as <-.
  now rewrite (write_cues_layout _ E).
Qed.




End BuildFacts.

(* ================================================================== *)
(** * Properties of the track builds, as they run *)
(* ================================================================== *)

Module BuildClaims.
Import Text TextFacts Script SegmenterFacts TrackFacts FloatFacts Timeline.
Import Vtt VttFacts ClockFacts BuildFacts TrackClaims.


(** ** Intervals of a track (C1) *)






(** ** When the allocation fails (C5) *)



End BuildClaims.

(* ================================================================== *)
(** * From the narration to the synthesised text *)
(* ================================================================== *)

Module SpokenText.
Import Text TextFacts Script SegmenterFacts SegmenterShape.
Import TrackFacts TrackShape Vtt VttFacts.

Definition bracket_free (s : str) : Prop :=
  Forall (fun c => c <> less_than /\ c <> greater_than) s.

(** ** Characters of a segment *)

Lemma join_forall (P : char -> Prop) (ws : list str) :
  P space -> Forall (Forall P) ws -> Forall P (join [space] ws).
Proof.
  intros Hsp. induction 1 as [|w r Hw Hr IH]; [constructor|].
  destruct r as [|x r]; [exact Hw|].
  rewrite join_cons. apply Forall_app. split; [exact Hw|].
  apply Forall_app. split; [now constructor | exact IH].
Qed.

Lemma word_one_line w : is_word w -> one_line w.
Proof.
  intros [_ Hw]. eapply Forall_impl; [|exact Hw].
  intros c Hc. split; intros ->; discriminate.
Qed.

Lemma joined_one_line s : joined s -> one_line s.
Proof.
  intros (ws & _ & Hws & ->). apply join_forall.
  - split; discriminate.
  - eapply Forall_impl; [|exact Hws]. apply word_one_line.
Qed.

Lemma joined_bracket_free s :
  joined s -> Forall bracket_free (split s) -> bracket_free s.
Proof.
  intros (ws & _ & Hws & ->) Hb. rewrite split_join in Hb by assumption.
  apply join_forall; [split; discriminate | exact Hb].
Qed.

(** ** No arrow without a [>] *)

Definition hyphen : char := 0x2D%N.

Lemma no_arrow_before s suffix :
  Forall (fun c => c <> greater_than) s ->
  contains arrow suffix = false ->
  starts_with [greater_than] suffix = false ->
  starts_with [hyphen; greater_than] suffix = false ->
  contains arrow (s ++ suffix) = false.
Proof.
  intros Hs Hc H1 H2. induction Hs as [|c s Hgt Hs IH]; [exact Hc|].
  cbn [app contains]. rewrite IH, orb_false_r.
  change arrow with [hyphen; hyphen; greater_than].
  cbn [starts_with]. apply andb_false_iff. right.
  destruct s as [|c2 s2]; [exact H2|].
  cbn [app starts_with]. apply andb_false_iff. right.
  destruct s2 as [|c3 s3]; [exact H1|].
  cbn [app starts_with]. inversion Hs as [|? ? _ Hs2]; subst.
  inversion Hs2 as [|? ? Hc3 _]; subst.
  apply andb_false_iff. left. apply N.eqb_neq. congruence.
Qed.

Lemma bracket_free_no_gt s :
  bracket_free s -> Forall (fun c => c <> greater_than) s.
Proof. intro H. eapply Forall_impl; [|exact H]. now intros c [_ Hc]. Qed.

Lemma bracket_free_no_lt s : bracket_free s -> no_less_than s.
Proof. intro H. eapply Forall_impl; [|exact H]. now intros c [Hc _]. Qed.

Lemma plain_has_no_arrow s : bracket_free s -> has_arrow s = false.
Proof.
  intro H. unfold has_arrow. rewrite <- (app_nil_r s).
  now apply no_arrow_before; [apply bracket_free_no_gt | | |].
Qed.

Lemma wrapped_has_no_arrow s :
  bracket_free s -> has_arrow (rate_slow s) = false.
Proof.
  intro H. unfold has_arrow, rate_slow.
  transitivity (contains arrow (s ++ of_string "</rate>"));
    [reflexivity|].
  now apply no_arrow_before; [apply bracket_free_no_gt | | |].
Qed.

(** ** Nothing to strip *)

Lemma rstrip_app x y : rstrip y <> [] -> rstrip (x ++ y) = x ++ rstrip y.
Proof.
  intro Hy. induction x as [|c x IH]; [reflexivity|].
  cbn [app rstrip]. rewrite IH.
  destruct (x ++ rstrip y) eqn:E; [|reflexivity].
  apply app_eq_nil in E. now elim Hy.
Qed.

Lemma rstrip_spaceless w : spaceless w -> rstrip w = w.
Proof.
  induction 1 as [|c w Hc _ IH]; [reflexivity|].
  cbn [rstrip]. rewrite IH, Hc. now destruct w.
Qed.

Lemma rstrip_join ws :
  ws <> [] -> Forall is_word ws ->
  rstrip (join [space] ws) = join [space] ws.
Proof.
  intros Hne Hws. induction Hws as [|w r [Hw Hs] Hr IH]; [now elim Hne|].
  destruct r as [|x r]; [now apply rstrip_spaceless|].
  rewrite join_cons.
  assert (Hx : join [space] (x :: r) <> []).
  { inversion Hr as [|? ? [Hx _] _]; subst.
    now apply join_starts_nonempty. }
  specialize (IH ltac:(discriminate)).
  set (J := join [space] (x :: r)) in *.
  assert (H1 : rstrip ([space] ++ J) = [space] ++ J).
  { rewrite rstrip_app; rewrite IH; [reflexivity | assumption]. }
  rewrite rstrip_app; rewrite H1; [reflexivity | discriminate].
Qed.

Lemma lstrip_join ws :
  Forall is_word ws -> lstrip (join [space] ws) = join [space] ws.
Proof.
  intros Hws. destruct Hws as [|w r [Hw Hs] _]; [reflexivity|].
  destruct w as [|c w]; [now elim Hw|].
  inversion Hs as [|? ? Hc _]; subst.
  destruct r; cbn; now rewrite Hc.
Qed.

Lemma joined_strip s : joined s -> strip s = s /\ s <> [].
Proof.
  intros (ws & Hne & Hws & ->). unfold strip.
  rewrite lstrip_join, rstrip_join by assumption.
  split; [reflexivity|].
  destruct ws as [|w r]; [now elim Hne|].
  inversion Hws as [|? ? [Hw _] _]; subst.
  now apply join_starts_nonempty.
Qed.

Lemma wrapped_strip s : strip (rate_slow s) = rate_slow s.
Proof.
  unfold strip.
  assert (Hl : lstrip (rate_slow s) = rate_slow s) by reflexivity.
  rewrite Hl. unfold rate_slow.
  assert (H1 : rstrip (s ++ of_string "</rate>")
               = s ++ of_string "</rate>")
    by (rewrite rstrip_app; [reflexivity | discriminate]).
  rewrite rstrip_app; rewrite H1; [reflexivity|].
  intro E. apply app_eq_nil in E. destruct E as [_ E]. discriminate.
Qed.

(** ** The texts of the cues *)

Lemma later_cue_texts (emphasis : str -> str) rest :
  (forall s, In s rest -> emphasis s = s) ->
  forall k,
    map (tts_text emphasis) (combine (seq (S k) (List.length rest)) rest)
    = map (fun s => [s]) rest.
Proof.
  induction rest as [|s r IH]; intros He k; [reflexivity|].
  cbn [List.length seq combine map]. unfold tts_text at 1. cbn [fst snd].
  cbn [Nat.eqb]. rewrite (He s) by now left.
  rewrite IH; [reflexivity|]. intros x Hx. apply He. now right.
Qed.

Lemma cue_texts (emphasis : str -> str) s0 rest :
  emphasis (rate_slow s0) = rate_slow s0 ->
  (forall s, In s rest -> emphasis s = s) ->
  map (tts_text emphasis) (enumerate (s0 :: rest))
  = [rate_slow s0] :: map (fun s => [s]) rest.
Proof.
  intros H0 Hr. unfold enumerate.
  cbn [List.length seq combine map]. unfold tts_text at 1.
  cbn [fst snd Nat.eqb]. rewrite H0. now rewrite later_cue_texts.
Qed.

(** ** Joining *)

Definition then_joined (rest : list str) : str :=
  match rest with
  | [] => []
  | _ :: _ => space :: join [space] rest
  end.

Lemma join_head x rest : join [space] (x :: rest) = x ++ then_joined rest.
Proof. destruct rest; simpl; [now rewrite app_nil_r | reflexivity]. Qed.

Lemma join_app (l1 l2 : list str) :
  l1 <> [] -> l2 <> [] ->
  join [space] (l1 ++ l2)
  = join [space] l1 ++ [space] ++ join [space] l2.
Proof.
  intros H1 H2. induction l1 as [|x r IH]; [now elim H1|].
  destruct r as [|y r].
  - cbn [app]. destruct l2; [now elim H2 | reflexivity].
  - change ((x :: y :: r) ++ l2) with (x :: (y :: r) ++ l2).
    change ((y :: r) ++ l2) with (y :: r ++ l2) at 1.
    rewrite !join_cons. change (y :: r ++ l2) with ((y :: r) ++ l2).
    rewrite IH by discriminate. now rewrite <- !app_assoc.
Qed.

(** Segments joined by blanks are their words joined by blanks. *)
Lemma join_segments (segs : list str) :
  Forall joined segs ->
  join [space] segs = join [space] (List.concat (map split segs)).
Proof.
  induction 1 as [|s r (ws & Hne & Hws & ->) Hr IH]; [reflexivity|].
  cbn [map List.concat]. rewrite (split_join Hws).
  destruct r as [|x r]; [now rewrite app_nil_r|].
  rewrite join_cons, IH, join_app; [reflexivity | assumption |].
  inversion Hr as [|? ? (wx & Hnx & Hwx & ->) _]; subst.
  cbn [map List.concat]. rewrite (split_join Hwx).
  destruct wx; [now elim Hnx | discriminate].
Qed.

Lemma segment_bracket_free text max_chars_per_line max_lines s :
  Forall bracket_free (split text) ->
  In s (split_into_segments text max_chars_per_line max_lines) ->
  joined s /\ bracket_free s.
Proof.
  intros Hb Hin.
  pose proof (segments_shape text max_chars_per_line max_lines) as Hs.
  rewrite Forall_forall in Hs. destruct (Hs _ Hin) as [Hj _].
  split; [exact Hj|]. apply (joined_bracket_free Hj).
  apply Forall_forall. intros w Hw.
  rewrite Forall_forall in Hb. apply Hb.
  destruct (split_into_segments_spec text max_chars_per_line max_lines)
    as [_ <-].
  apply in_concat. exists (split s). split; [now apply in_map | exact Hw].
Qed.

Lemma readable_segment s : joined s -> bracket_free s -> readable s.
Proof.
  intros Hj Hb. split; [now apply joined_one_line|].
  split; [now apply plain_has_no_arrow|].
  destruct (joined_strip Hj) as [-> Hne]. exact Hne.
Qed.

Lemma readable_wrapped s : joined s -> bracket_free s -> readable (rate_slow s).
Proof.
  intros Hj Hb. split; [|split].
  - unfold rate_slow, one_line. rewrite !Forall_app.
    split; [repeat constructor; discriminate|].
    split; [now apply joined_one_line|].
    repeat constructor; discriminate.
  - now apply wrapped_has_no_arrow.
  - rewrite wrapped_strip. discriminate.
Qed.

Lemma strip_tags_wrapped s0 tail :
  no_less_than s0 -> no_less_than tail ->
  strip_tags (rate_slow s0 ++ tail) = s0 ++ tail.
Proof.
  intros H0 Ht. unfold strip_tags, rate_slow.
  change ((of_string "<rate slow>" ++ s0 ++ of_string "</rate>") ++ tail)
    with (less_than :: of_string "rate slow"
          ++ greater_than :: (s0 ++ of_string "</rate>") ++ tail).
  cbn [strip_tags_go]. rewrite N.eqb_refl.
  rewrite strip_tags_tag;
    [|repeat constructor; discriminate | discriminate].
  rewrite <- app_assoc, (strip_tags_free _ H0). f_equal.
  change (of_string "</rate>" ++ tail)
    with (less_than :: of_string "/rate" ++ greater_than :: tail).
  cbn [strip_tags_go]. rewrite N.eqb_refl.
  rewrite strip_tags_tag;
    [|repeat constructor; discriminate | discriminate].
  rewrite <- (app_nil_r tail) at 1. rewrite (strip_tags_free [] Ht).
  apply app_nil_r.
Qed.

Lemma then_joined_free rest :
  Forall (fun s => joined s /\ bracket_free s) rest ->
  no_less_than (then_joined rest).
Proof.
  intro H. destruct rest as [|x r]; [constructor|].
  cbn [then_joined]. constructor; [discriminate|].
  apply bracket_free_no_lt. apply join_forall; [split; discriminate|].
  eapply Forall_impl; [|exact H]. now intros s [_ Hb].
Qed.

(** ** The characters billed *)

(** [generate_audio] on a script whose TTS track file holds [content]:
    the ledger steps run with [chars_used = len(full_text)]. *)
Definition generate_audio_of_track (content : str) (now_month : Z)
  (synth : result unit) : Tts.M Tts.receipt :=
  Tts.generate_audio now_month (len (full_text content)) synth.

(** The receipt of a call that returns reports the characters it was
    called with. *)
Lemma generate_audio_reports_chars now chars synth fs r fs' :
  Tts.generate_audio now chars synth fs = (Ok r, fs') ->
  Tts.chars_used_this_request r = chars.
Proof.
  unfold Tts.generate_audio, Tts.bind, Tts.lift, Tts.ret.
  destruct (Tts.load_tts_config fs) as [[cfg|e] f1]; [|discriminate].
  destruct (Tts.load_usage_data now f1) as [[u|e] f2]; [|discriminate].
  destruct (Tts.select_project cfg u) as [sel|e]; [|discriminate].
  destruct synth as [[]|e]; [|discriminate].
  destruct (Tts.update_usage now _ chars f2) as [[[]|e] f3];
    [|discriminate].
  destruct (Tts.load_usage_data now f3) as [[u'|e] f4]; [|discriminate].
  destruct (find _ u') as [p|]; [|discriminate].
  destruct (Tts.safety_limit cfg) as [l|]; [|discriminate].
  intros [= <- _]. reflexivity.
Qed.

(** X21.  From the narration to the synthesiser.  Take a narration
    without [<] or [>] whose cue texts the emphasis step leaves as they
    are (no trigger word), and a [total_duration] for which
    [generate_tts_vtt] returns a track.  Then what [generate_audio] makes
    of that track (the texts of the parsed segments joined by blanks,
    tags taken out) is the narration with its whitespace normalised: its
    words joined by single blanks.  The [chars_used_this_request] of a
    call that returns is the length of that text. *)
Theorem synthesised_text_is_the_narration
  (emphasis : str -> str) (summary_text : str) (total_duration : float)
  (content : str) :
  generate_tts_vtt_text emphasis summary_text total_duration = Ok content ->
  Forall bracket_free (split summary_text) ->
  (forall s,
     In s (split_into_segments summary_text default_max_chars
                               default_max_lines) ->
     emphasis s = s /\ emphasis (rate_slow s) = rate_slow s) ->
  full_text content = join [space] (split summary_text)
  /\ forall now_month synth fs r fs',
       generate_audio_of_track content now_month synth fs = (Ok r, fs') ->
       Tts.chars_used_this_request r
       = len (join [space] (split summary_text)).
Proof.
  intros Hbuild Hb He.
  assert (Htext : full_text content = join [space] (split summary_text)).
  { rewrite BuildFacts.generate_tts_vtt_text_cues in Hbuild.
    destruct (generate_tts_vtt binary64 emphasis summary_text
                               total_duration) as [cues|] eqn:Ecues;
      [|discriminate].
    cbn [and_then] in Hbuild.
    apply BuildFacts.written_layout in Hbuild. subst content.
    pose proof (tts_cues _ _ _ Ecues) as Hlines.
    pose proof (tts_intervals binary64 emphasis summary_text
                              total_duration) as Hiv.
    rewrite Ecues in Hiv.
    pose proof (fun s => @segment_bracket_free summary_text
                           default_max_chars default_max_lines s Hb)
      as Hseg.
    pose proof (split_into_segments_spec summary_text default_max_chars
                                         default_max_lines) as [_ Hwords].
    pose proof (segments_shape summary_text default_max_chars
                               default_max_lines) as Hshape.
    destruct (split_into_segments summary_text default_max_chars
                                  default_max_lines) as [|s0 rest] eqn:Esegs.
    { discriminate Hiv. }
    clear Hiv.
    rewrite cue_texts in Hlines;
      [| apply He; now left | intros s Hs; apply He; now right].
    assert (H0 : joined s0 /\ bracket_free s0) by (apply Hseg; now left).
    assert (Hrest : Forall (fun s => joined s /\ bracket_free s) rest).
    { apply Forall_forall. intros s Hs. apply Hseg. now right. }
    assert (Hread :
      Forall (fun c : cue binary64 =>
                lines c <> [] /\ Forall readable (lines c)) cues).
    { apply Forall_forall. intros c Hc.
      apply (in_map (@lines binary64)) in Hc. rewrite Hlines in Hc.
      destruct Hc as [<-|Hc].
      - split; [discriminate|]. constructor; [|constructor].
        now apply readable_wrapped.
      - apply in_map_iff in Hc. destruct Hc as (s & <- & Hs).
        split; [discriminate|]. constructor; [|constructor].
        rewrite Forall_forall in Hrest. destruct (Hrest _ Hs).
        now apply readable_segment. }
    unfold full_text.
    rewrite (@parse_render binary64 BuildFacts.clock
               BuildFacts.clock_one_line tts_header cues);
      [| discriminate | repeat constructor | exact Hread].
    assert (Htexts :
      map text (map (@read_back binary64 BuildFacts.clock) cues)
      = rate_slow s0 :: rest).
    { rewrite map_map. unfold read_back. cbn [text].
      rewrite <- (map_map (@lines binary64)
                    (fun ls => join [space] (map strip ls))), Hlines.
      cbn [map join]. rewrite wrapped_strip. f_equal.
      rewrite map_map. cbn [map join].
      rewrite <- (map_id rest) at 2. apply map_ext_in. intros s Hs.
      rewrite Forall_forall in Hrest. destruct (Hrest _ Hs) as [Hj _].
      now destruct (joined_strip Hj). }
    rewrite Htexts, join_head.
    rewrite strip_tags_wrapped;
      [| now apply bracket_free_no_lt | now apply then_joined_free].
    rewrite <- join_head, <- Hwords. apply join_segments.
    eapply Forall_impl; [|exact Hshape]. now intros s [Hj _]. }
  split; [exact Htext|].
  intros now_month synth fs r fs' Hr. unfold generate_audio_of_track in Hr.
  apply generate_audio_reports_chars in Hr. now rewrite Hr, Htext.
Qed.

Lemma synthesised_text_is_the_narration_witness :
  exists content,
    generate_tts_vtt_text TrackClaims.plain
      (of_string "Breaking  news today." ++ [newline]
       ++ of_string "Markets fell sharply.") 10%float = Ok content
    /\ full_text content
       = join [space]
           (split (of_string "Breaking  news today." ++ [newline]
                   ++ of_string "Markets fell sharply."))
    /\ forall now_month synth fs r fs',
         generate_audio_of_track content now_month synth fs = (Ok r, fs') ->
         Tts.chars_used_this_request r
         = len (join [space]
                  (split (of_string "Breaking  news today." ++ [newline]
                          ++ of_string "Markets fell sharply."))).
Proof.
  eexists. split; [vm_compute; reflexivity|].
  apply (@synthesised_text_is_the_narration TrackClaims.plain
           (of_string "Breaking  news today." ++ [newline]
            ++ of_string "Markets fell sharply.") 10%float).
  - vm_compute. reflexivity.
  - vm_compute. repeat constructor; discriminate.
  - intros s _. split; reflexivity.
Defined.

End SpokenText.

(* ================================================================== *)
(** * tts_generator.py: the voice of a news type *)
(* ================================================================== *)

Module Voice.

(** A JSON object read as a [dict]: [d k] is [d.get(k)]. *)
Definition dict (V : Type) : Type := string -> option V.

(** A voice configuration: the items of its object; the empty object is
    false in a condition. *)
Definition voice_config : Type := list (string * string).

Definition fallback_voice : voice_config :=
  [("language_code", "en-US"); ("name", "en-US-Neural2-C")]%string.

(** [voice_mapping] is [None] when the configuration has no such key. *)
Definition get_voice_config (news_type : string)
  (voice_mapping : option (dict voice_config)) : voice_config :=
  let voice_map : dict voice_config :=
    match voice_mapping with
    | Some m => m
    | None => fun _ => None
    end in
  let found :=
    match voice_map news_type with
    | Some v => Some v
    | None => voice_map "default"%string
    end in
  match found with
  | Some (item :: items) => item :: items
  | Some [] | None => fallback_voice
  end.

(** X22.  [get_voice_config] never returns an empty voice: it returns
    the entry of the news type when that is not empty, the ["default"]
    entry when the news type has no entry and the default is not empty,
    and the built-in en-US voice otherwise; an entry of the news type
    that is empty leads to the built-in voice, not to the default
    entry. *)
Theorem voice_is_never_empty :
  forall (news_type : string) (voice_mapping : option (dict voice_config)),
    let lookup k :=
      match voice_mapping with
      | Some m => m k
      | None => None
      end in
    let v := get_voice_config news_type voice_mapping in
    v <> []
    /\ match lookup news_type with
       | Some (item :: items) => v = item :: items
       | Some [] => v = fallback_voice
       | None =>
           match lookup "default"%string with
           | Some (item :: items) => v = item :: items
           | Some [] | None => v = fallback_voice
           end
       end.
Proof.
  intros news_type voice_mapping. cbv zeta. unfold get_voice_config.
  destruct voice_mapping as [m|]; [|split; [discriminate | reflexivity]].
  destruct (m news_type) as [[|item items]|].
  - split; [discriminate | reflexivity].
  - split; [discriminate | reflexivity].
  - destruct (m "default"%string) as [[|item items]|];
      (split; [discriminate | reflexivity]).
Qed.

End Voice.
